(** * coap_prng.h: the platform back ends of libcoap's [prng()]

    A shallow embedding of [include/coap2/coap_prng.h].  The header selects
    one of three byte-filling back ends by conditional compilation:

    - [WITH_CONTIKI]: [contiki_prng_impl], built on [random_rand()], with
      [prng_init(Value)] expanding to [random_init((uint16_t)(Value))];
    - [WITH_LWIP] and [LWIP_RAND]: [lwip_prng_impl], built on [LWIP_RAND()],
      with an empty [prng_init];
    - [_WIN32]: [coap_prng_impl], built on [rand_s()], with an empty
      [prng_init].

    The host primitives ([random_rand], [random_init], [LWIP_RAND],
    [rand_s]) are not part of the header; they are Section variables: total
    functions on an abstract generator state. *)

From Stdlib Require Import ZArith Lia.
From stdpp Require Import base tactics option list list_numbers.

Local Open Scope Z_scope.

(** ** Memory, control flow and the machine state *)

(** Result of running a statement on a state of type [S]. *)
Inductive flow (S : Type) : Type :=
| Next (s : S)             (* control reaches the end of the statement *)
| Return (r : Z) (s : S)   (* a [return r;] was executed *)
| Fault                    (* access outside the destination object *)
| OutOfFuel.               (* the iteration budget of the model ran out *)
Arguments Next {S} s.
Arguments Return {S} r s.
Arguments Fault {S}.
Arguments OutOfFuel {S}.

(** [while (cond) body], run for at most [fuel] iterations. *)
Fixpoint while {S : Type} (cond : S → bool) (body : S → flow S)
    (fuel : nat) (s : S) : flow S :=
  if cond s then
    match fuel with
    | O => OutOfFuel
    | Datatypes.S fuel' =>
        match body s with
        | Next s' => while cond body fuel' s'
        | other => other
        end
    end
  else Next s.

(** The machine state: the host generator, the object [buf] points into
    (one [unsigned char] per element, each in [0, 256)), and the number of
    calls made to the host generator so far.  The last field is
    instrumentation: no modelled code reads it. *)
Record world (G : Type) : Type := World {
  rng : G;
  mem : list Z;
  draws : nat
}.
Arguments World {G} rng mem draws.
Arguments rng {G} w.
Arguments mem {G} w.
Arguments draws {G} w.

Definition set_mem {G} (w : world G) (m : list Z) : world G :=
  World (rng w) m (draws w).

(** [*p = b] for a pointer at offset [p] of the destination object.  A
    store outside the object is undefined behaviour in C; here it is
    [None]. *)
Definition store (m : list Z) (p : Z) (b : Z) : option (list Z) :=
  if bool_decide (0 ≤ p < Z.of_nat (length m))
  then Some (<[Z.to_nat p := b]> m)
  else None.

Fixpoint store_bytes (m : list Z) (p : Z) (bs : list Z) : option (list Z) :=
  match bs with
  | [] => Some m
  | b :: bs' =>
      match store m p b with
      | Some m' => store_bytes m' (p + 1) bs'
      | None => None
      end
  end.

(** [memcpy(dst, src, n)], where [src] is the object representation of the
    source object.  Reading more bytes than the source has, or writing
    outside the destination object, is [None]. *)
Definition memcpy (m : list Z) (dst : Z) (src : list Z) (n : Z)
    : option (list Z) :=
  if bool_decide (0 ≤ n ≤ Z.of_nat (length src))
  then store_bytes m dst (take (Z.to_nat n) src)
  else None.

(** Byte order of the host, which fixes what [memcpy(buf, &v, n)] copies. *)
Inductive endianness : Set := LittleEndian | BigEndian.

(** Object representation of an unsigned integer [v] of [size] bytes. *)
Definition object_bytes (e : endianness) (size : Z) (v : Z) : list Z :=
  match e with
  | LittleEndian => Z_to_little_endian size 8 v
  | BigEndian => reverse (Z_to_little_endian size 8 v)
  end.

(** The unsigned integer whose object representation is [bytes]: what
    [memcpy(&v, p, sizeof(v))] reads back from memory. *)
Definition object_value (e : endianness) (bytes : list Z) : Z :=
  match e with
  | LittleEndian => little_endian_to_Z 8 bytes
  | BigEndian => little_endian_to_Z 8 (reverse bytes)
  end.

(** ** The word-copying loop of the Contiki and LwIP back ends

  [contiki_prng_impl] and [lwip_prng_impl] are the same text up to the
  type of [v] ([uint16_t], [u32_t]) and the generator called
  ([random_rand()], [LWIP_RAND()]); both are instances of
  [word_prng_impl_fuel]. *)
Section WordBackend.
Context {G : Type}.
Variable order : endianness.   (* byte order of the host *)
Variable size_bits : Z.        (* width of [size_t] in bits *)
Variable rand : G → Z * G.     (* the host generator *)
Variable sizeof_v : Z.         (* [sizeof(v)] *)

(** Arithmetic on [size_t] wraps around. *)
Definition size_t (x : Z) : Z := x mod 2 ^ size_bits.

(** [v = rand();], converted to the unsigned type of [v]. *)
Definition draw (w : world G) : Z * world G :=
  let '(r, g') := rand (rng w) in
  (r mod 2 ^ (8 * sizeof_v), World g' (mem w) (Datatypes.S (draws w))).

(** The parameters [buf], [len] and the local [v]. *)
Record locals : Type := Locals { buf : Z; len : Z; v : Z }.

(** [len > sizeof(v)] *)
Definition word_cond (s : locals * world G) : bool :=
  bool_decide (len s.1 > sizeof_v).

(** [memcpy(buf, &v, sizeof(v)); len -= sizeof(v); buf += sizeof(v);
     v = rand();] *)
Definition word_body (s : locals * world G) : flow (locals * world G) :=
  let '(l, w) := s in
  match memcpy (mem w) (buf l) (object_bytes order sizeof_v (v l)) sizeof_v with
  | None => Fault
  | Some m' =>
      let len' := size_t (len l - sizeof_v) in
      let buf' := buf l + sizeof_v in
      let '(v', w') := draw (set_mem w m') in
      Next (Locals buf' len' v', w')
  end.

Definition word_prng_impl_fuel (fuel : nat) (buf0 len0 : Z) (w : world G)
    : flow (world G) :=
  let '(v0, w0) := draw w in
  match while word_cond word_body fuel (Locals buf0 len0 v0, w0) with
  | Next (l, w1) =>
      match memcpy (mem w1) (buf l) (object_bytes order sizeof_v (v l)) (len l) with
      | None => Fault
      | Some m' => Return 1 (set_mem w1 m')
      end
  | Return r (_, w1) => Return r w1
  | Fault => Fault
  | OutOfFuel => OutOfFuel
  end.

(** The loop runs fewer than [len] times, so [len] iterations suffice
    (shown below for every larger budget too). *)
Definition word_prng_impl (buf0 len0 : Z) (w : world G) : flow (world G) :=
  word_prng_impl_fuel (Z.to_nat len0) buf0 len0 w.

(** *** Reference functions for the statements *)

(** The first [n] words of the generator started in state [g], each
    converted to the type of [v], and the state after them. *)
Fixpoint stream_words (n : nat) (g : G) : list Z :=
  match n with
  | O => []
  | Datatypes.S n' =>
      (rand g).1 mod 2 ^ (8 * sizeof_v) :: stream_words n' (rand g).2
  end.

Fixpoint stream_state (n : nat) (g : G) : G :=
  match n with
  | O => g
  | Datatypes.S n' => stream_state n' (rand g).2
  end.

(** The bytes of a sequence of words as [memcpy] lays them out. *)
Definition stream_bytes (ws : list Z) : list Z :=
  ws ≫= object_bytes order sizeof_v.

(** Number of iterations of the loop, and of generator calls of one
    [fill]: one before the loop and one per iteration. *)
Definition loop_rounds (len : Z) : nat := Z.to_nat ((len - 1) / sizeof_v).
Definition words_drawn (len : Z) : nat := Datatypes.S (loop_rounds len).

(** What follows the first draw: the loop and the final [memcpy]. *)
Definition word_rest (fuel : nat) (s : locals * world G) : flow (world G) :=
  match while word_cond word_body fuel s with
  | Next (l, w1) =>
      match memcpy (mem w1) (buf l) (object_bytes order sizeof_v (v l)) (len l) with
      | None => Fault
      | Some m' => Return 1 (set_mem w1 m')
      end
  | Return r (_, w1) => Return r w1
  | Fault => Fault
  | OutOfFuel => OutOfFuel
  end.
End WordBackend.

(** ** [#if defined(WITH_CONTIKI)] *)
Module Contiki.
Section Contiki.
Context {G : Type}.
Variable order : endianness.
Variable size_bits : Z.
Variable random_rand : G → Z * G.    (* [unsigned short random_rand(void)] *)
Variable random_init : Z → G → G.    (* [void random_init(unsigned short)] *)

(** [uint16_t v = random_rand(); while (len > sizeof(v)) {...}
     memcpy(buf, &v, len); return 1;] *)
Definition contiki_prng_impl_fuel (fuel : nat) (buf len : Z) (w : world G)
    : flow (world G) :=
  word_prng_impl_fuel order size_bits random_rand 2 fuel buf len w.

Definition contiki_prng_impl (buf len : Z) (w : world G) : flow (world G) :=
  word_prng_impl order size_bits random_rand 2 buf len w.

(** [#define prng(Buf,Length) contiki_prng_impl((Buf), (Length))] *)
Definition prng := contiki_prng_impl.

(** A macro argument is an expression, evaluated where the expansion
    mentions it. *)
Definition expr : Type := world G → Z * world G.
Definition lit (z : Z) : expr := λ w, (z, w).

(** [#define prng_init(Value) random_init((uint16_t)(Value))] *)
Definition prng_init (Value : expr) (w : world G) : world G :=
  let '(x, w') := Value w in
  World (random_init (x mod 2 ^ 16) (rng w')) (mem w') (draws w').
End Contiki.
End Contiki.

(** ** [#elif defined(WITH_LWIP) && defined(LWIP_RAND)] *)
Module LwIP.
Section LwIP.
Context {G : Type}.
Variable order : endianness.
Variable size_bits : Z.
Variable LWIP_RAND : G → Z * G.      (* the port's [LWIP_RAND()] *)

(** [u32_t v = LWIP_RAND(); while (len > sizeof(v)) {...}
     memcpy(buf, &v, len); return 1;] *)
Definition lwip_prng_impl_fuel (fuel : nat) (buf len : Z) (w : world G)
    : flow (world G) :=
  word_prng_impl_fuel order size_bits LWIP_RAND 4 fuel buf len w.

Definition lwip_prng_impl (buf len : Z) (w : world G) : flow (world G) :=
  word_prng_impl order size_bits LWIP_RAND 4 buf len w.

(** [#define prng(Buf,Length) lwip_prng_impl((Buf), (Length))] *)
Definition prng := lwip_prng_impl.

Definition expr : Type := world G → Z * world G.

(** [#define prng_init(Value)]: the expansion is empty, so [Value] is not
    even evaluated. *)
Definition prng_init (Value : expr) (w : world G) : world G := w.
End LwIP.
End LwIP.

(** ** [#elif defined(_WIN32)] *)
Module Win32.
Section Win32.
Context {G : Type}.
Variable size_bits : Z.
(** [errno_t rand_s(unsigned int* _RandomValue)]: the status returned and
    the value found in the pointed-to object after the call. *)
Variable rand_s : G → Z * Z * G.

Definition expr : Type := world G → Z * world G.

(** [#define prng_init(Value)]: empty expansion. *)
Definition prng_init (Value : expr) (w : world G) : world G := w.

(** [rand_s(&r)] with [uint32_t r]. *)
Definition call_rand_s (w : world G) : Z * Z * world G :=
  let '(status, x, g') := rand_s (rng w) in
  (status, x mod 2 ^ 32, World g' (mem w) (Datatypes.S (draws w))).

(** State of the [for] loop: [i], [buf] and [r], next to the memory. *)
Record for_locals : Type := ForLocals { i : Z; p : Z; r : Z }.

(** [i < len && i < 4] *)
Definition for_cond (len : Z) (s : for_locals * list Z) : bool :=
  bool_decide (i s.1 < len) && bool_decide (i s.1 < 4).

(** [*buf++ = (uint8_t)r; r >>= 8;] followed by [i++] *)
Definition for_body (s : for_locals * list Z) : flow (for_locals * list Z) :=
  let '(f, m) := s in
  match store m (p f) (r f mod 2 ^ 8) with
  | None => Fault
  | Some m' =>
      Next (ForLocals (size_t size_bits (i f + 1)) (p f + 1) (r f ≫ 8), m')
  end.

(** The parameters [buf] and [len]. *)
Record locals : Type := Locals { buf : Z; len : Z }.

(** [len != 0] *)
Definition coap_cond (s : locals * world G) : bool :=
  bool_decide (len s.1 ≠ 0).

(** Body of the [while] loop.  The guard [i < 4] bounds the [for] loop by
    four iterations. *)
Definition coap_body (s : locals * world G) : flow (locals * world G) :=
  let '(l, w) := s in
  let '(status, r0, w1) := call_rand_s w in
  if bool_decide (status ≠ 0) then Return 0 (l, w1)
  else
    match while (for_cond (len l)) for_body 4 (ForLocals 0 (buf l) r0, mem w1) with
    | Next (f, m') =>
        Next (Locals (p f) (size_t size_bits (len l - i f)), set_mem w1 m')
    | Return x _ => Return x (l, w1)
    | Fault => Fault
    | OutOfFuel => OutOfFuel
    end.

(** [while (len != 0) {...} return 1;] *)
Definition coap_prng_impl_fuel (fuel : nat) (buf0 len0 : Z) (w : world G)
    : flow (world G) :=
  match while coap_cond coap_body fuel (Locals buf0 len0, w) with
  | Next (_, w') => Return 1 w'
  | Return x (_, w') => Return x w'
  | Fault => Fault
  | OutOfFuel => OutOfFuel
  end.

Definition coap_prng_impl (buf0 len0 : Z) (w : world G) : flow (world G) :=
  coap_prng_impl_fuel (Z.to_nat len0) buf0 len0 w.
End Win32.
End Win32.

(** ** Runs of [rand_s] *)
Section RandSRuns.
Context {G : Type}.
Variable rand_s : G → Z * Z * G.

(** [succeeds k g ws g']: started in state [g], the next [k] calls of
    [rand_s] all return status 0; they store the words [ws] and leave the
    generator in state [g']. *)
Inductive succeeds : nat → G → list Z → G → Prop :=
| succeeds_O g : succeeds 0 g [] g
| succeeds_S k g x g1 ws g' :
    rand_s g = (0, x, g1) → succeeds k g1 ws g' →
    succeeds (Datatypes.S k) g (x mod 2 ^ 32 :: ws) g'.

(** [fails_after k g ws g']: [k] successful calls, then one that returns a
    nonzero status and leaves the generator in state [g']. *)
Definition fails_after (k : nat) (g : G) (ws : list Z) (g' : G) : Prop :=
  ∃ g1 status x,
    succeeds k g ws g1 ∧ rand_s g1 = (status, x, g') ∧ status ≠ 0.

(** The bytes of a sequence of 32-bit words, least significant first. *)
Definition le_bytes (ws : list Z) : list Z := ws ≫= Z_to_little_endian 4 8.

(** Number of 4-byte chunks, the last possibly partial, in [len] bytes. *)
Definition chunks (len : Z) : nat := Z.to_nat ((len + 3) / 4).
End RandSRuns.

(** ** Sample hosts, used to run the back ends on concrete inputs *)
Module Sample.
(** The portable generator of ISO C ([rand]/[srand]), which Contiki's
    [random_rand]/[random_init] wrap on hosted platforms. *)
Definition random_rand (g : Z) : Z * Z :=
  let g' := (g * 1103515245 + 12345) mod 2 ^ 32 in
  ((g' / 65536) mod 32768, g').
Definition random_init (seed : Z) (_ : Z) : Z := seed.

(** A 32-bit xorshift step as [LWIP_RAND()]. *)
Definition LWIP_RAND (g : Z) : Z * Z :=
  let a := Z.lxor g ((g ≪ 13) mod 2 ^ 32) in
  let b := Z.lxor a (a ≫ 17) in
  let c := Z.lxor b ((b ≪ 5) mod 2 ^ 32) in
  (c, c).

(** [rand_s] replaying a script of (status, value) pairs; once the script
    is used up every call fails with [EINVAL]. *)
Definition rand_s (g : list (Z * Z)) : Z * Z * list (Z * Z) :=
  match g with
  | [] => (22, 0, [])
  | (status, x) :: g' => (status, x, g')
  end.

(** A [rand_s] that never fails, drawing from the xorshift generator. *)
Definition rand_s_ok (g : Z) : Z * Z * Z :=
  (0, (LWIP_RAND g).1, (LWIP_RAND g).2).

Definition zeros (n : nat) : list Z := replicate n 0.
End Sample.

(** The worlds used in the concrete runs below: generator state 1 and some
    zero bytes of memory, no call made yet; and for [rand_s] a script of one
    successful call followed by a failing one. *)
Definition w_sample : world Z := World 1 (Sample.zeros 4) 0.
Definition w_sample8 : world Z := World 1 (Sample.zeros 8) 0.
Definition w_script : world (list (Z * Z)) :=
  World [(0, 16909060); (5, 0)] (Sample.zeros 8) 0.

(** A script of two successful calls. *)
Definition w_script2 : world (list (Z * Z)) :=
  World [(0, 16909060); (0, 84281096)] (Sample.zeros 8) 0.

(** ** Reference notions used in the statements *)

(** [m] with [bytes] written from offset [p] on; nothing else changes. *)
Definition overwritten (m : list Z) (p : Z) (bytes : list Z) : list Z :=
  take (Z.to_nat p) m ++ bytes ++ drop (Z.to_nat p + length bytes) m.

(** [buf] points to at least [len] bytes of the object in memory. *)
Definition valid_buffer {G} (w : world G) (buf len : Z) : Prop :=
  0 ≤ buf ∧ 0 ≤ len ∧ buf + len ≤ Z.of_nat (length (mem w)).

(** [m'] agrees with [m] outside the [len] bytes from offset [buf] on. *)
Definition same_outside (m m' : list Z) (buf len : Z) : Prop :=
  length m' = length m ∧
  ∀ j : nat, Z.of_nat j < buf ∨ buf + len ≤ Z.of_nat j → m' !! j = m !! j.

(** The contract of a [fill]: on a buffer of at least [len] bytes the call
    returns 1 after writing [len] bytes, or returns 0 after writing fewer.
    The bytes written are fixed before the memory is: they do not depend
    on what the buffer held. *)
Definition fill_contract {G} (size_bits : Z)
    (fill : Z → Z → world G → flow (world G)) : Prop :=
  ∀ buf len g d, 0 ≤ buf → 0 ≤ len < 2 ^ size_bits →
    ∃ r bytes g' d',
      (r = 1 ∧ Z.of_nat (length bytes) = len ∨
       r = 0 ∧ Z.of_nat (length bytes) < len) ∧
      ∀ m, buf + len ≤ Z.of_nat (length m) →
        fill buf len (World g m d)
        = Return r (World g' (overwritten m buf bytes) d') ∧
        same_outside m (overwritten m buf bytes) buf len.

(** The [len] bytes a word-copying back end delivers when the generator is
    in state [g]. *)
Definition word_output {G} (order : endianness) (rand : G → Z * G)
    (sizeof_v len : Z) (g : G) : list Z :=
  take (Z.to_nat len)
    (stream_bytes order sizeof_v
       (stream_words rand sizeof_v (words_drawn sizeof_v len) g)).

(** * Proofs *)

(** ** Stores *)

Lemma length_overwritten m p bytes :
  0 ≤ p → p + Z.of_nat (length bytes) ≤ Z.of_nat (length m) →
  length (overwritten m p bytes) = length m.
Proof.
  intros Hp Hlen. unfold overwritten.
  rewrite !length_app, length_take, length_drop. lia.
Qed.

Lemma overwritten_nil m p : overwritten m p [] = m.
Proof.
  unfold overwritten. simpl. rewrite Nat.add_0_r. apply take_drop.
Qed.

Lemma store_Some m p b :
  0 ≤ p < Z.of_nat (length m) → store m p b = Some (overwritten m p [b]).
Proof.
  intros Hp. unfold store. rewrite bool_decide_eq_true_2 by done.
  f_equal. unfold overwritten. simpl.
  rewrite insert_take_drop by lia. do 3 f_equal. lia.
Qed.

Lemma overwritten_app m p bs1 bs2 :
  0 ≤ p → p + Z.of_nat (length bs1) ≤ Z.of_nat (length m) →
  overwritten (overwritten m p bs1) (p + Z.of_nat (length bs1)) bs2
  = overwritten m p (bs1 ++ bs2).
Proof.
  intros Hp Hlen. unfold overwritten.
  replace (Z.to_nat (p + Z.of_nat (length bs1)))
    with (Z.to_nat p + length bs1)%nat by lia.
  assert (Hl : length (take (Z.to_nat p) m) = Z.to_nat p)
    by (rewrite length_take; lia).
  rewrite !(assoc_L (++) (take _ m)).
  rewrite take_app_length' by (rewrite length_app; lia).
  rewrite drop_app_ge by (rewrite length_app; lia).
  rewrite length_app, Hl, drop_drop, length_app.
  rewrite <- !(assoc_L (++)). do 4 f_equal. lia.
Qed.

Lemma store_bytes_Some bs : ∀ m p,
  0 ≤ p → p + Z.of_nat (length bs) ≤ Z.of_nat (length m) →
  store_bytes m p bs = Some (overwritten m p bs).
Proof.
  induction bs as [|b bs IH]; intros m p Hp Hlen; simpl in *.
  - by rewrite overwritten_nil.
  - rewrite store_Some by lia.
    rewrite IH; [|lia|rewrite length_overwritten; simpl; lia].
    f_equal. apply (overwritten_app m p [b] bs); simpl; lia.
Qed.

Lemma memcpy_Some m dst src n :
  0 ≤ n ≤ Z.of_nat (length src) → 0 ≤ dst →
  dst + n ≤ Z.of_nat (length m) →
  memcpy m dst src n = Some (overwritten m dst (take (Z.to_nat n) src)).
Proof.
  intros Hn Hdst Hlen. unfold memcpy.
  rewrite bool_decide_eq_true_2 by done.
  apply store_bytes_Some; [done|]. rewrite length_take. lia.
Qed.

Lemma memcpy_zero m dst src : memcpy m dst src 0 = Some m.
Proof.
  unfold memcpy. rewrite bool_decide_eq_true_2 by lia. by rewrite take_0.
Qed.

Lemma length_object_bytes e size x :
  0 ≤ size → Z.of_nat (length (object_bytes e size x)) = size.
Proof.
  intros Hsize. destruct e; simpl; rewrite ?length_reverse;
    by apply length_Z_to_little_endian.
Qed.

(** ** Loops *)

Lemma while_S {S} (cond : S → bool) (body : S → flow S) fuel s :
  cond s = true →
  while cond body (Datatypes.S fuel) s
  = match body s with
    | Next s' => while cond body fuel s'
    | other => other
    end.
Proof. intros Hc. simpl. by rewrite Hc. Qed.

(** A loop that finished within its budget gives the same result with any
    larger budget. *)
Lemma while_fuel_mono {S} (cond : S → bool) (body : S → flow S) fuel :
  ∀ fuel' s, (fuel ≤ fuel')%nat →
    while cond body fuel s ≠ OutOfFuel →
    while cond body fuel' s = while cond body fuel s.
Proof.
  induction fuel as [|fuel IH]; intros fuel' s Hle Hterm.
  - destruct fuel'; simpl in *; destruct (cond s); done.
  - destruct fuel' as [|fuel']; [lia|]. simpl in *.
    destruct (cond s); [|done].
    destruct (body s); try done. apply IH; [lia|done].
Qed.

(** ** The word-copying back ends: what they compute *)
Section WordBackendFacts.
Context {G : Type}.
Variable order : endianness.
Variable size_bits : Z.
Variable rand : G → Z * G.
Variable sizeof_v : Z.
Hypothesis sizeof_pos : 0 < sizeof_v.

Local Abbreviation cond := (word_cond sizeof_v).
Local Abbreviation body := (word_body order size_bits rand sizeof_v).
Local Abbreviation bytes_of := (object_bytes order sizeof_v).
Local Abbreviation rest := (word_rest order size_bits rand sizeof_v).
Local Abbreviation rounds := (loop_rounds sizeof_v).
Local Abbreviation drawn := (words_drawn sizeof_v).
Local Abbreviation words := (stream_words rand sizeof_v).
Local Abbreviation state_after := (stream_state rand).
Local Abbreviation bytes_from := (stream_bytes order sizeof_v).

Lemma word_prng_impl_fuel_rest fuel b n w :
  word_prng_impl_fuel order size_bits rand sizeof_v fuel b n w
  = rest fuel (Locals b n (draw rand sizeof_v w).1, (draw rand sizeof_v w).2).
Proof.
  unfold word_prng_impl_fuel, word_rest. by destruct (draw rand sizeof_v w).
Qed.

Lemma draw_eq w :
  draw rand sizeof_v w
  = ((rand (rng w)).1 mod 2 ^ (8 * sizeof_v),
     World (rand (rng w)).2 (mem w) (Datatypes.S (draws w))).
Proof. unfold draw. by destruct (rand (rng w)). Qed.

Lemma loop_rounds_small n : n ≤ sizeof_v → rounds n = 0%nat.
Proof.
  intros Hn. unfold loop_rounds.
  destruct (decide (n ≤ 0)).
  - assert ((n - 1) / sizeof_v < 0) by (apply Z.div_lt_upper_bound; lia). lia.
  - rewrite Z.div_small by lia. done.
Qed.

Lemma loop_rounds_step n :
  sizeof_v < n → rounds n = Datatypes.S (rounds (n - sizeof_v)).
Proof.
  intros Hn. unfold loop_rounds.
  replace (n - 1) with ((n - sizeof_v - 1) + 1 * sizeof_v) by lia.
  rewrite Z.div_add by lia.
  assert (0 ≤ (n - sizeof_v - 1) / sizeof_v) by (apply Z.div_pos; lia).
  lia.
Qed.

Lemma word_rest_exit fuel b n x w :
  n ≤ sizeof_v →
  rest fuel (Locals b n x, w)
  = match memcpy (mem w) b (bytes_of x) n with
    | None => Fault
    | Some m' => Return 1 (set_mem w m')
    end.
Proof.
  intros Hn. unfold word_rest.
  assert (Hc : cond (Locals b n x, w) = false)
    by (unfold word_cond; simpl; apply bool_decide_eq_false_2; lia).
  destruct fuel; simpl; by rewrite Hc.
Qed.

Lemma word_rest_iter fuel b n x w :
  sizeof_v < n →
  rest (Datatypes.S fuel) (Locals b n x, w)
  = match memcpy (mem w) b (bytes_of x) sizeof_v with
    | None => Fault
    | Some m' =>
        rest fuel
          (Locals (b + sizeof_v) (size_t size_bits (n - sizeof_v))
             ((rand (rng w)).1 mod 2 ^ (8 * sizeof_v)),
           World (rand (rng w)).2 m' (Datatypes.S (draws w)))
    end.
Proof.
  intros Hn. unfold word_rest.
  assert (Hc : cond (Locals b n x, w) = true)
    by (unfold word_cond; simpl; apply bool_decide_eq_true_2; lia).
  simpl. rewrite Hc. unfold word_body at 1. simpl.
  destruct (memcpy _ _ _ _); [|done].
  by rewrite draw_eq.
Qed.

(** The loop and the final copy, from any loop state. *)
Lemma word_rest_spec fuel : ∀ b n x w,
  0 ≤ n < 2 ^ size_bits → 0 ≤ b → b + n ≤ Z.of_nat (length (mem w)) →
  (rounds n ≤ fuel)%nat →
  rest fuel (Locals b n x, w)
  = Return 1
      (World (state_after (rounds n) (rng w))
         (overwritten (mem w) b
            (take (Z.to_nat n)
               (bytes_of x ++ bytes_from (words (rounds n) (rng w)))))
         (draws w + rounds n)).
Proof.
  induction fuel as [|fuel IH]; intros b n x w Hn Hb Hlen Hfuel.
  all: destruct (decide (n ≤ sizeof_v)) as [Hle|Hgt].
  all: try (rewrite loop_rounds_step in Hfuel by lia; lia).
  1, 2: rewrite word_rest_exit, memcpy_Some, loop_rounds_small
          by (rewrite ?length_object_bytes; lia);
        simpl; rewrite app_nil_r, Nat.add_0_r; by destruct w.
  rewrite word_rest_iter by lia.
  rewrite memcpy_Some by (rewrite ?length_object_bytes; lia).
  assert (Hwrap : size_t size_bits (n - sizeof_v) = n - sizeof_v)
    by (unfold size_t; apply Z.mod_small; lia).
  assert (Hbytes : length (bytes_of x) = Z.to_nat sizeof_v)
    by (apply Nat2Z.inj; rewrite length_object_bytes; lia).
  rewrite Hwrap, take_ge by lia.
  rewrite loop_rounds_step in Hfuel |- * by lia.
  rewrite IH; simpl;
    [ | lia | lia | rewrite length_overwritten; lia | lia ].
  f_equal. f_equal; [|lia].
  replace (b + sizeof_v) with (b + Z.of_nat (length (bytes_of x))) by lia.
  rewrite overwritten_app by lia. f_equal.
  rewrite (take_app_ge (bytes_of x)) by lia.
  unfold stream_bytes at 2. simpl. do 2 f_equal. lia.
Qed.
Lemma loop_rounds_le n : 0 ≤ n → (rounds n ≤ Z.to_nat n)%nat.
Proof.
  intros Hn. destruct (decide (n ≤ sizeof_v)).
  - rewrite loop_rounds_small by done. lia.
  - unfold loop_rounds.
    assert ((n - 1) / sizeof_v ≤ n - 1) by (apply Z.div_le_upper_bound; nia).
    lia.
Qed.

(** Full functional description of a call whose buffer is large enough. *)
Lemma word_prng_impl_fuel_spec fuel b n w :
  0 ≤ n < 2 ^ size_bits → 0 ≤ b → b + n ≤ Z.of_nat (length (mem w)) →
  (rounds n ≤ fuel)%nat →
  word_prng_impl_fuel order size_bits rand sizeof_v fuel b n w
  = Return 1
      (World (state_after (drawn n) (rng w))
         (overwritten (mem w) b
            (take (Z.to_nat n) (bytes_from (words (drawn n) (rng w)))))
         (draws w + drawn n)).
Proof.
  intros Hn Hb Hlen Hfuel.
  rewrite word_prng_impl_fuel_rest, draw_eq. simpl.
  rewrite word_rest_spec by done. simpl.
  unfold words_drawn. do 2 f_equal. lia.
Qed.

Lemma word_prng_impl_spec b n w :
  0 ≤ n < 2 ^ size_bits → 0 ≤ b → b + n ≤ Z.of_nat (length (mem w)) →
  word_prng_impl order size_bits rand sizeof_v b n w
  = Return 1
      (World (state_after (drawn n) (rng w))
         (overwritten (mem w) b
            (take (Z.to_nat n) (bytes_from (words (drawn n) (rng w)))))
         (draws w + drawn n)).
Proof.
  intros Hn Hb Hlen. unfold word_prng_impl.
  apply word_prng_impl_fuel_spec; try done. apply loop_rounds_le; lia.
Qed.

(** The words drawn provide at least [n] bytes. *)
Lemma length_stream_bytes ws :
  Z.of_nat (length (bytes_from ws)) = Z.of_nat (length ws) * sizeof_v.
Proof.
  induction ws as [|x ws IH]; [done|].
  change (bytes_from (x :: ws)) with (bytes_of x ++ bytes_from ws).
  rewrite length_app, Nat2Z.inj_add, IH, length_object_bytes by lia.
  simpl length. lia.
Qed.

Lemma length_stream_words k g : length (words k g) = k.
Proof. revert g. induction k as [|k IH]; intros g; simpl; by rewrite ?IH. Qed.

Lemma words_drawn_enough n :
  n ≤ Z.of_nat (drawn n) * sizeof_v.
Proof.
  unfold words_drawn, loop_rounds. destruct (decide (n ≤ 0)); [nia|].
  assert (0 ≤ (n - 1) / sizeof_v) by (apply Z.div_pos; lia).
  pose proof (Z.mod_pos_bound (n - 1) sizeof_v sizeof_pos).
  pose proof (Z.div_mod (n - 1) sizeof_v). nia.
Qed.

Lemma length_take_stream n g :
  0 ≤ n →
  Z.of_nat (length (take (Z.to_nat n)
                      (bytes_from (words (drawn n) g)))) = n.
Proof.
  intros Hn. rewrite length_take.
  pose proof (length_stream_bytes (words (drawn n) g)) as Hl.
  rewrite length_stream_words in Hl.
  pose proof (words_drawn_enough n). lia.
Qed.

(** Each iteration takes [sizeof(v)] off [len], without wrap-around. *)
Lemma word_body_decreases l w l' w' :
  0 ≤ len l < 2 ^ size_bits →
  cond (l, w) = true → body (l, w) = Next (l', w') →
  len l' = len l - sizeof_v ∧ 0 < len l' < len l ∧ buf l' = buf l + sizeof_v.
Proof.
  intros Hn Hc Hb. unfold word_cond in Hc. simpl in Hc.
  apply bool_decide_eq_true_1 in Hc.
  unfold word_body in Hb. destruct (memcpy _ _ _ _); [|done].
  rewrite draw_eq in Hb. simplify_eq. simpl.
  unfold size_t. rewrite Z.mod_small by lia. lia.
Qed.

(** The loop never exhausts a budget of [rounds len] iterations,
    whatever the buffer. *)
Lemma word_rest_terminates fuel : ∀ b n x w,
  0 ≤ n < 2 ^ size_bits → (rounds n ≤ fuel)%nat →
  rest fuel (Locals b n x, w) ≠ OutOfFuel.
Proof.
  induction fuel as [|fuel IH]; intros b n x w Hn Hfuel.
  all: destruct (decide (n ≤ sizeof_v)) as [Hle|Hgt].
  all: try (rewrite loop_rounds_step in Hfuel by lia; lia).
  1, 2: rewrite word_rest_exit by done; by destruct (memcpy _ _ _ _).
  rewrite word_rest_iter by lia. destruct (memcpy _ _ _ _); [|done].
  rewrite loop_rounds_step in Hfuel by lia.
  unfold size_t. rewrite Z.mod_small by lia. apply IH; lia.
Qed.

Lemma word_rest_fuel_mono fuel fuel' s :
  (fuel ≤ fuel')%nat → rest fuel s ≠ OutOfFuel →
  rest fuel' s = rest fuel s.
Proof.
  intros Hle Hterm. unfold word_rest in *.
  rewrite (while_fuel_mono _ _ fuel fuel'); [done|done|].
  intros Heq. by rewrite Heq in Hterm.
Qed.

Lemma word_prng_impl_terminates fuel b n w :
  0 ≤ n < 2 ^ size_bits → (rounds n ≤ fuel)%nat →
  word_prng_impl_fuel order size_bits rand sizeof_v fuel b n w ≠ OutOfFuel ∧
  word_prng_impl_fuel order size_bits rand sizeof_v fuel b n w
  = word_prng_impl order size_bits rand sizeof_v b n w.
Proof.
  intros Hn Hfuel. unfold word_prng_impl.
  rewrite !word_prng_impl_fuel_rest.
  split; [by apply word_rest_terminates|].
  destruct (decide (fuel ≤ Z.to_nat n)%nat).
  - symmetry. apply word_rest_fuel_mono; [done|].
    by apply word_rest_terminates.
  - apply word_rest_fuel_mono; [lia|].
    apply word_rest_terminates; [done|]. apply loop_rounds_le; lia.
Qed.
End WordBackendFacts.

(** ** The Win32 back end: what it computes *)
Section Win32Facts.
Context {G : Type}.
Variable size_bits : Z.
Variable rand_s : G → Z * Z * G.

Import Win32.

Local Abbreviation fcond := for_cond.
Local Abbreviation fbody := (for_body size_bits).
Local Abbreviation fill_fuel := (coap_prng_impl_fuel size_bits rand_s).

Lemma take_Z_to_little_endian k : ∀ m n z,
  Z.of_nat k ≤ m →
  take k (Z_to_little_endian m n z) = Z_to_little_endian (Z.of_nat k) n z.
Proof.
  induction k as [|k IH]; intros m n z Hk; [done|].
  replace m with (Z.succ (m - 1)) by lia.
  rewrite Nat2Z.inj_succ, !Z_to_little_endian_succ by lia.
  simpl. f_equal. apply IH. lia.
Qed.

(** The [for] loop started at [i] stores the low [min(len, 4) - i] bytes
    of [r], lowest first. *)
Lemma for_loop_spec len fuel : ∀ i0 p0 r0 m,
  len < 2 ^ size_bits → 0 ≤ i0 ≤ Z.min len 4 →
  (Z.to_nat (Z.min len 4 - i0) ≤ fuel)%nat →
  0 ≤ p0 → p0 + (Z.min len 4 - i0) ≤ Z.of_nat (length m) →
  ∃ r',
    while (fcond len) fbody fuel (ForLocals i0 p0 r0, m)
    = Next (ForLocals (Z.min len 4) (p0 + (Z.min len 4 - i0)) r',
            overwritten m p0 (Z_to_little_endian (Z.min len 4 - i0) 8 r0)).
Proof.
  induction fuel as [|fuel IH]; intros i0 p0 r0 m Hlen Hi Hfuel Hp Hm.
  all: destruct (decide (i0 = Z.min len 4)) as [->|Hne].
  all: try lia.
  1, 2: exists r0;
        assert (Hc : fcond len (ForLocals (Z.min len 4) p0 r0, m) = false)
          by (unfold for_cond; simpl; rewrite andb_false_iff,
                !bool_decide_eq_false; lia);
        simpl; rewrite Hc, Z.sub_diag, Z.add_0_r;
        by rewrite Z_to_little_endian_0, overwritten_nil.
  assert (Hc : fcond len (ForLocals i0 p0 r0, m) = true)
    by (unfold for_cond; simpl; rewrite andb_true_iff,
          !bool_decide_eq_true; lia).
  simpl. rewrite Hc. rewrite store_Some by lia.
  unfold size_t. rewrite (Z.mod_small (i0 + 1)) by lia.
  destruct (IH (i0 + 1) (p0 + 1) (r0 ≫ 8) (overwritten m p0 [r0 mod 2 ^ 8]))
    as [r' Hr']; try lia.
  { rewrite length_overwritten; simpl; lia. }
  exists r'. rewrite Hr'. do 2 f_equal.
  - f_equal. lia.
  - rewrite (overwritten_app m p0 [_]) by (simpl; lia).
    f_equal. replace (Z.min len 4 - i0) with (Z.succ (Z.min len 4 - (i0 + 1))) by lia.
    rewrite Z_to_little_endian_succ by lia.
    rewrite Z.land_ones by lia. done.
Qed.
(** Without any assumption on the buffer, the [for] loop either faults
    or ends with [i = min(len, 4)]; it never exhausts its budget. *)
Lemma for_loop_cases len fuel : ∀ i0 p0 r0 m,
  len < 2 ^ size_bits → 0 ≤ i0 ≤ Z.min len 4 →
  (Z.to_nat (Z.min len 4 - i0) ≤ fuel)%nat →
  while (fcond len) fbody fuel (ForLocals i0 p0 r0, m) = Fault ∨
  ∃ r' m',
    while (fcond len) fbody fuel (ForLocals i0 p0 r0, m)
    = Next (ForLocals (Z.min len 4) (p0 + (Z.min len 4 - i0)) r', m').
Proof.
  induction fuel as [|fuel IH]; intros i0 p0 r0 m Hlen Hi Hfuel.
  all: destruct (decide (i0 = Z.min len 4)) as [->|Hne].
  all: try lia.
  1, 2: right; exists r0, m;
        assert (Hc : fcond len (ForLocals (Z.min len 4) p0 r0, m) = false)
          by (unfold for_cond; simpl; rewrite andb_false_iff,
                !bool_decide_eq_false; lia);
        simpl; by rewrite Hc, Z.sub_diag, Z.add_0_r.
  assert (Hc : fcond len (ForLocals i0 p0 r0, m) = true)
    by (unfold for_cond; simpl; rewrite andb_true_iff,
          !bool_decide_eq_true; lia).
  simpl. rewrite Hc. destruct (store m p0 _) as [m1|]; [|by left].
  unfold size_t. rewrite (Z.mod_small (i0 + 1)) by lia.
  destruct (IH (i0 + 1) (p0 + 1) (r0 ≫ 8) m1) as [->|(r' & m' & ->)];
    try lia; [by left|].
  right. exists r', m'. do 3 f_equal. lia.
Qed.

Lemma call_rand_s_eq w status x g' :
  rand_s (rng w) = (status, x, g') →
  call_rand_s rand_s w
  = (status, x mod 2 ^ 32, World g' (mem w) (Datatypes.S (draws w))).
Proof. intros Hr. unfold call_rand_s. by rewrite Hr. Qed.

(** One iteration of the [while] loop whose [rand_s] call fails. *)
Lemma coap_body_fail l w status x g' :
  rand_s (rng w) = (status, x, g') → status ≠ 0 →
  coap_body size_bits rand_s (l, w)
  = Return 0 (l, World g' (mem w) (Datatypes.S (draws w))).
Proof.
  intros Hr Hst. unfold coap_body.
  rewrite (call_rand_s_eq _ _ _ _ Hr). by rewrite bool_decide_eq_true_2.
Qed.

(** One iteration whose [rand_s] call succeeds, on a large enough buffer. *)
Lemma coap_body_ok b n w x g' :
  rand_s (rng w) = (0, x, g') →
  0 ≤ n < 2 ^ size_bits → 0 ≤ b → b + n ≤ Z.of_nat (length (mem w)) →
  coap_body size_bits rand_s (Locals b n, w)
  = Next (Locals (b + Z.min n 4) (n - Z.min n 4),
          World g'
            (overwritten (mem w) b
               (take (Z.to_nat n) (Z_to_little_endian 4 8 (x mod 2 ^ 32))))
            (Datatypes.S (draws w))).
Proof.
  intros Hr Hn Hb Hlen. unfold coap_body.
  rewrite (call_rand_s_eq _ _ _ _ Hr). rewrite bool_decide_eq_false_2 by lia.
  cbn [len buf mem].
  destruct (for_loop_spec n 4 0 b (x mod 2 ^ 32) (mem w)) as [r' ->]; try lia.
  cbn [p i]. unfold size_t, set_mem. rewrite Z.mod_small by lia. cbn [rng draws].
  rewrite !Z.sub_0_r. do 4 f_equal.
  destruct (decide (n ≤ 4)).
  - rewrite Z.min_l by lia. rewrite take_Z_to_little_endian by lia.
    f_equal. lia.
  - rewrite Z.min_r by lia. rewrite take_ge; [done|].
    apply Nat2Z.inj_le. rewrite length_Z_to_little_endian; lia.
Qed.

(** One iteration, whatever the buffer: an early [return 0], a fault, or
    [min(len, 4)] bytes further. *)
Lemma coap_body_cases b n w :
  0 < n < 2 ^ size_bits →
  (∃ w', coap_body size_bits rand_s (Locals b n, w) = Return 0 (Locals b n, w')) ∨
  coap_body size_bits rand_s (Locals b n, w) = Fault ∨
  (∃ w', coap_body size_bits rand_s (Locals b n, w)
         = Next (Locals (b + Z.min n 4) (n - Z.min n 4), w')).
Proof.
  intros Hn. destruct (rand_s (rng w)) as [[status x] g'] eqn:Hr.
  destruct (decide (status = 0)) as [->|Hst].
  - right. unfold coap_body. rewrite (call_rand_s_eq _ _ _ _ Hr).
    rewrite bool_decide_eq_false_2 by lia. cbn [len buf mem].
    destruct (for_loop_cases n 4 0 b (x mod 2 ^ 32) (mem w))
      as [->|(r' & m' & ->)]; try lia; [by left|].
    right. eexists. cbn [p i]. unfold size_t.
    rewrite Z.mod_small by lia. by rewrite Z.sub_0_r.
  - left. eexists. by apply (coap_body_fail _ _ status x g').
Qed.
Lemma coap_cond_true b n (w : world G) :
  n ≠ 0 → coap_cond (Locals b n, w) = true.
Proof. intros Hn. unfold coap_cond. by apply bool_decide_eq_true_2. Qed.

Lemma fill_fuel_zero fuel b w : fill_fuel fuel b 0 w = Return 1 w.
Proof. unfold coap_prng_impl_fuel. by destruct fuel. Qed.

Lemma fill_fuel_fail fuel b n w status x g' :
  n ≠ 0 → rand_s (rng w) = (status, x, g') → status ≠ 0 →
  fill_fuel (Datatypes.S fuel) b n w
  = Return 0 (World g' (mem w) (Datatypes.S (draws w))).
Proof.
  intros Hn Hr Hst. unfold coap_prng_impl_fuel.
  rewrite while_S by (by apply coap_cond_true).
  by rewrite (coap_body_fail _ _ status x g').
Qed.

Lemma fill_fuel_ok fuel b n w x g' :
  rand_s (rng w) = (0, x, g') →
  0 < n < 2 ^ size_bits → 0 ≤ b → b + n ≤ Z.of_nat (length (mem w)) →
  fill_fuel (Datatypes.S fuel) b n w
  = fill_fuel fuel (b + Z.min n 4) (n - Z.min n 4)
      (World g'
         (overwritten (mem w) b
            (take (Z.to_nat n) (Z_to_little_endian 4 8 (x mod 2 ^ 32))))
         (Datatypes.S (draws w))).
Proof.
  intros Hr Hn Hb Hlen. unfold coap_prng_impl_fuel.
  rewrite while_S by (apply coap_cond_true; lia).
  by rewrite (coap_body_ok _ _ _ x g') by (done || lia).
Qed.

Lemma chunks_zero n : 0 ≤ n → chunks n = 0%nat → n = 0.
Proof.
  unfold chunks. intros Hn Hc.
  destruct (decide (n = 0)); [done|].
  assert (1 ≤ (n + 3) / 4) by (apply Z.div_le_lower_bound; lia). lia.
Qed.

Lemma chunks_step n :
  0 < n → chunks n = Datatypes.S (chunks (n - Z.min n 4)).
Proof.
  intros Hn. unfold chunks. destruct (decide (n ≤ 4)).
  - rewrite Z.min_l, Z.sub_diag by lia.
    replace ((n + 3) / 4) with 1; [done|].
    apply Z.div_unique with (r := n - 1); lia.
  - rewrite Z.min_r by lia.
    replace (n + 3) with ((n - 4 + 3) + 1 * 4) by lia.
    rewrite Z.div_add by lia.
    assert (0 ≤ (n - 4 + 3) / 4) by (apply Z.div_pos; lia). lia.
Qed.

Lemma chunks_le n : 0 ≤ n → (chunks n ≤ Z.to_nat n)%nat.
Proof.
  intros Hn. unfold chunks. destruct (decide (n = 0)) as [->|]; [done|].
  assert ((n + 3) / 4 ≤ n) by (apply Z.div_le_upper_bound; lia). lia.
Qed.

Lemma length_le_bytes ws : length (le_bytes ws) = (4 * length ws)%nat.
Proof.
  induction ws as [|x ws IH]; [done|].
  change (le_bytes (x :: ws)) with (Z_to_little_endian 4 8 x ++ le_bytes ws).
  rewrite length_app, IH. simpl length.
  pose proof (length_Z_to_little_endian 4 8 x). lia.
Qed.

Lemma succeeds_length k g ws g' : succeeds rand_s k g ws g' → length ws = k.
Proof. induction 1; simpl; congruence. Qed.

(** Joining the chunk just written with the bytes of the later words. *)
Lemma take_chunk n x rest :
  0 < n →
  take (Z.to_nat n) (Z_to_little_endian 4 8 x)
    ++ take (Z.to_nat (n - Z.min n 4)) rest
  = take (Z.to_nat n) (Z_to_little_endian 4 8 x ++ rest).
Proof.
  intros Hn. rewrite take_app. f_equal.
  pose proof (length_Z_to_little_endian 4 8 x).
  f_equal. lia.
Qed.

Lemma length_take_chunk n x :
  0 < n →
  Z.of_nat (length (take (Z.to_nat n) (Z_to_little_endian 4 8 x))) = Z.min n 4.
Proof.
  intros Hn. rewrite length_take.
  pose proof (length_Z_to_little_endian 4 8 x). lia.
Qed.

(** All calls succeed: the call returns 1 after one call per chunk. *)
Lemma fill_fuel_succeeds k g ws g' :
  succeeds rand_s k g ws g' →
  ∀ fuel b n w,
    rng w = g → 0 ≤ n < 2 ^ size_bits → k = chunks n → (k ≤ fuel)%nat →
    0 ≤ b → b + n ≤ Z.of_nat (length (mem w)) →
    fill_fuel fuel b n w
    = Return 1
        (World g' (overwritten (mem w) b (take (Z.to_nat n) (le_bytes ws)))
           (draws w + k)).
Proof.
  induction 1 as [g|k g x g1 ws g' Hr Hs IH];
    intros fuel b n w Hg Hn Hk Hfuel Hb Hlen.
  - symmetry in Hk. apply chunks_zero in Hk; [|lia]. subst n.
    rewrite fill_fuel_zero, take_0, overwritten_nil, Nat.add_0_r.
    destruct w; simpl in *; by subst.
  - assert (0 < n) by (destruct (decide (n = 0)) as [->|]; [done|lia]).
    destruct fuel as [|fuel]; [lia|]. subst g.
    rewrite (fill_fuel_ok _ _ _ _ x g1) by (done || lia).
    rewrite chunks_step in Hk by lia.
    pose proof (length_take_chunk n (x mod 2 ^ 32)).
    rewrite IH; cbn [rng mem draws];
      [ | done | lia | lia | lia | lia | rewrite length_overwritten; lia ].
    f_equal. f_equal; [|lia].
    replace (b + Z.min n 4)
      with (b + Z.of_nat (length (take (Z.to_nat n)
                                    (Z_to_little_endian 4 8 (x mod 2 ^ 32)))))
      by lia.
    rewrite overwritten_app by lia. f_equal. by apply take_chunk.
Qed.
(** A call fails after [k] successful ones, before the buffer is full:
    the call returns 0 at once, the bytes of the [k] words stay in the
    buffer and nothing else is written. *)
Lemma fill_fuel_fails k g ws g1 :
  succeeds rand_s k g ws g1 →
  ∀ fuel b n w status x g2,
    rng w = g → rand_s g1 = (status, x, g2) → status ≠ 0 →
    0 ≤ n < 2 ^ size_bits → 4 * Z.of_nat k < n → (k < fuel)%nat →
    0 ≤ b → b + n ≤ Z.of_nat (length (mem w)) →
    fill_fuel fuel b n w
    = Return 0
        (World g2 (overwritten (mem w) b (le_bytes ws))
           (draws w + Datatypes.S k)).
Proof.
  induction 1 as [g|k g y g1 ws g' Hr Hs IH];
    intros fuel b n w status x g2 Hg Hx Hst Hn Hk Hfuel Hb Hlen.
  all: destruct fuel as [|fuel]; [lia|]; subst g.
  - rewrite (fill_fuel_fail _ _ _ _ status x g2) by (done || lia).
    rewrite overwritten_nil. do 2 f_equal. lia.
  - rewrite (fill_fuel_ok _ _ _ _ y g1) by (done || lia).
    pose proof (length_take_chunk n (y mod 2 ^ 32)).
    rewrite (IH _ _ _ _ status x g2); cbn [rng mem draws];
      [ | done | done | done | lia | lia | lia | lia
        | rewrite length_overwritten; lia ].
    f_equal. f_equal; [|lia].
    replace (b + Z.min n 4)
      with (b + Z.of_nat (length (take (Z.to_nat n)
                                    (Z_to_little_endian 4 8 (y mod 2 ^ 32)))))
      by lia.
    rewrite overwritten_app by lia. f_equal.
    rewrite take_ge; [done|].
    pose proof (length_Z_to_little_endian 4 8 (y mod 2 ^ 32)). lia.
Qed.

(** Of the next [k] calls either all succeed or there is a first one that
    fails. *)
Lemma succeeds_or_fails k : ∀ g,
  (∃ ws g', succeeds rand_s k g ws g') ∨
  (∃ j ws g', (j < k)%nat ∧ fails_after rand_s j g ws g').
Proof.
  induction k as [|k IH]; intros g.
  - left. exists [], g. constructor.
  - destruct (rand_s g) as [[status x] g1] eqn:Hr.
    destruct (decide (status = 0)) as [->|Hst].
    + destruct (IH g1) as [(ws & g' & Hs)|(j & ws & g' & Hj & Hf)].
      * left. exists (x mod 2 ^ 32 :: ws), g'. by econstructor.
      * right. destruct Hf as (g2 & st & y & Hs & Hy & Hne).
        exists (Datatypes.S j), (x mod 2 ^ 32 :: ws), g'.
        split; [lia|]. exists g2, st, y. split; [by econstructor|done].
    + right. exists 0%nat, [], g1. split; [lia|].
      exists g, status, x. split; [constructor|done].
Qed.

(** The loop never exhausts a budget of one iteration per chunk, whatever
    the buffer and whatever [rand_s] returns. *)
Lemma fill_fuel_terminates fuel : ∀ b n w,
  0 ≤ n < 2 ^ size_bits → (chunks n ≤ fuel)%nat →
  fill_fuel fuel b n w ≠ OutOfFuel.
Proof.
  induction fuel as [|fuel IH]; intros b n w Hn Hfuel.
  all: destruct (decide (n = 0)) as [->|Hne].
  all: try by rewrite fill_fuel_zero.
  all: rewrite chunks_step in Hfuel by lia; try lia.
  specialize (IH (b + Z.min n 4) (n - Z.min n 4)).
  unfold coap_prng_impl_fuel in *.
  rewrite while_S by (by apply coap_cond_true).
  destruct (coap_body_cases b n w) as [[w' ->]|[->|[w' ->]]]; try done; [lia|].
  apply IH; lia.
Qed.

Lemma fill_fuel_mono fuel fuel' b n w :
  (fuel ≤ fuel')%nat → fill_fuel fuel b n w ≠ OutOfFuel →
  fill_fuel fuel' b n w = fill_fuel fuel b n w.
Proof.
  intros Hle Hterm. unfold coap_prng_impl_fuel in *.
  rewrite (while_fuel_mono _ _ fuel fuel'); [done|done|].
  intros Heq. by rewrite Heq in Hterm.
Qed.

Lemma fill_fuel_closed fuel b n w :
  0 ≤ n < 2 ^ size_bits → (chunks n ≤ fuel)%nat →
  fill_fuel fuel b n w = coap_prng_impl size_bits rand_s b n w.
Proof.
  intros Hn Hfuel. unfold coap_prng_impl.
  destruct (decide (fuel ≤ Z.to_nat n)%nat).
  - symmetry. apply fill_fuel_mono; [done|]. by apply fill_fuel_terminates.
  - apply fill_fuel_mono; [lia|].
    apply fill_fuel_terminates; [done|]. apply chunks_le; lia.
Qed.
End Win32Facts.

Lemma overwritten_same_outside m buf len bytes :
  0 ≤ buf → Z.of_nat (length bytes) ≤ len →
  buf + len ≤ Z.of_nat (length m) →
  same_outside m (overwritten m buf bytes) buf len.
Proof.
  intros Hbuf Hbytes Hlen. split; [apply length_overwritten; lia|].
  intros j Hj. unfold overwritten.
  assert (Hl : length (take (Z.to_nat buf) m) = Z.to_nat buf)
    by (rewrite length_take; lia).
  destruct Hj as [Hj|Hj].
  - rewrite lookup_app_l by lia. apply lookup_take_lt. lia.
  - rewrite lookup_app_r by lia. rewrite lookup_app_r by lia.
    rewrite lookup_drop. f_equal. lia.
Qed.

Lemma word_prng_impl_contract {G} order size_bits (rand : G → Z * G) sizeof_v :
  0 < sizeof_v →
  fill_contract size_bits (word_prng_impl order size_bits rand sizeof_v).
Proof.
  intros Hsz buf len g d Hbuf Hlen.
  exists 1, (word_output order rand sizeof_v len g),
    (stream_state rand (words_drawn sizeof_v len) g),
    (d + words_drawn sizeof_v len)%nat.
  assert (Hl : Z.of_nat (length (word_output order rand sizeof_v len g)) = len)
    by (apply length_take_stream; lia).
  split; [by left|]. intros m Hm. split.
  - by rewrite word_prng_impl_spec by (done || simpl; lia).
  - apply overwritten_same_outside; lia.
Qed.

Lemma coap_prng_impl_contract {G} size_bits (rand_s : G → Z * Z * G) :
  fill_contract size_bits (Win32.coap_prng_impl size_bits rand_s).
Proof.
  intros buf len g d Hbuf Hlen.
  destruct (succeeds_or_fails rand_s (chunks len) g)
    as [(ws & g' & Hs)|(k & ws & g' & Hk & g1 & status & x & Hs & Hx & Hst)].
  - exists 1, (take (Z.to_nat len) (le_bytes ws)), g', (d + chunks len)%nat.
    assert (Hl : Z.of_nat (length (take (Z.to_nat len) (le_bytes ws))) = len).
    { rewrite length_take, length_le_bytes, (succeeds_length _ _ _ _ _ Hs).
      unfold chunks in *.
      destruct (decide (len = 0)) as [->|]; [done|].
      pose proof (Z.mod_pos_bound (len + 3) 4).
      pose proof (Z.div_mod (len + 3) 4). lia. }
    split; [by left|]. intros m Hm. split.
    + rewrite <- (fill_fuel_closed _ _ (chunks len)) by (done || lia).
      apply (fill_fuel_succeeds _ _ _ _ _ _ Hs (chunks len) buf len
               (World g m d)); simpl; (done || lia).
    + apply overwritten_same_outside; lia.
  - exists 0, (le_bytes ws), g', (d + Datatypes.S k)%nat.
    assert (Hl : Z.of_nat (length (le_bytes ws)) < len).
    { rewrite length_le_bytes, (succeeds_length _ _ _ _ _ Hs).
      unfold chunks in Hk.
      pose proof (Z.mod_pos_bound (len + 3) 4).
      pose proof (Z.div_mod (len + 3) 4). lia. }
    rewrite length_le_bytes, (succeeds_length _ _ _ _ _ Hs) in Hl.
    split; [right; rewrite length_le_bytes, (succeeds_length _ _ _ _ _ Hs); lia|].
    intros m Hm. split.
    + rewrite <- (fill_fuel_closed _ _ (chunks len)) by (done || lia).
      apply (fill_fuel_fails _ _ _ _ _ _ Hs (chunks len) buf len
               (World g m d) status x g'); simpl; (done || lia).
    + apply overwritten_same_outside; rewrite ?length_le_bytes,
        ?(succeeds_length _ _ _ _ _ Hs); lia.
Qed.

(** C1. Every back end of the header honours the contract of [fill]: for
    each [len ≥ 0] the call either returns 1 having written exactly [len]
    bytes from [buf] on, or returns 0 (Win32 only, after fewer than [len]
    bytes); the memory from index [len] of the buffer on is never
    changed. *)
Theorem fill_writes_len_bytes_or_fails {G : Type} (order : endianness)
    (size_bits : Z) (random_rand LWIP_RAND : G → Z * G)
    (rand_s : G → Z * Z * G) :
  fill_contract size_bits
    (Contiki.contiki_prng_impl order size_bits random_rand) ∧
  fill_contract size_bits (LwIP.lwip_prng_impl order size_bits LWIP_RAND) ∧
  fill_contract size_bits (Win32.coap_prng_impl size_bits rand_s).
Proof.
  split; [|split].
  - by apply word_prng_impl_contract.
  - by apply word_prng_impl_contract.
  - apply coap_prng_impl_contract.
Qed.

Lemma word_prng_impl_zero {G} order size_bits (rand : G → Z * G) sizeof_v b w :
  0 ≤ sizeof_v →
  word_prng_impl order size_bits rand sizeof_v b 0 w
  = Return 1 (World (rand (rng w)).2 (mem w) (Datatypes.S (draws w))).
Proof.
  intros Hsz. unfold word_prng_impl.
  rewrite word_prng_impl_fuel_rest, draw_eq. simpl fst. simpl snd.
  rewrite word_rest_exit by done. by rewrite memcpy_zero.
Qed.

(** C2. With [len = 0] every back end returns 1 and leaves every byte of
    memory as it was, whatever [buf] is.  (Contiki and LwIP still call their
    generator once; Win32 changes nothing at all.) *)
Theorem fill_zero_length {G : Type} (order : endianness) (size_bits : Z)
    (random_rand LWIP_RAND : G → Z * G) (rand_s : G → Z * Z * G)
    (buf : Z) (w : world G) :
  Contiki.contiki_prng_impl order size_bits random_rand buf 0 w
  = Return 1 (World (random_rand (rng w)).2 (mem w) (Datatypes.S (draws w))) ∧
  LwIP.lwip_prng_impl order size_bits LWIP_RAND buf 0 w
  = Return 1 (World (LWIP_RAND (rng w)).2 (mem w) (Datatypes.S (draws w))) ∧
  Win32.coap_prng_impl size_bits rand_s buf 0 w = Return 1 w.
Proof.
  split; [|split].
  - by apply word_prng_impl_zero.
  - by apply word_prng_impl_zero.
  - apply fill_fuel_zero.
Qed.

(** C3, as stated, fails: with [len = 0] the Contiki back end writes no
    byte, yet it has called [random_rand] once and the generator is in a
    new state. *)
Lemma fill_zero_length_advances_generator :
  ∃ w',
    Contiki.contiki_prng_impl LittleEndian 32 Sample.random_rand 0 0 w_sample
    = Return 1 w' ∧
    mem w' = mem w_sample ∧
    rng w' ≠ rng w_sample ∧
    draws w' = Datatypes.S (draws w_sample).
Proof.
  eexists. split; [vm_compute; reflexivity|]. by vm_compute.
Qed.

(** C3, amended. A call changes only the [len] destination bytes and the
    state of the host generator.  Contiki and LwIP call the generator
    [max(1, ceil(len / sizeof(v)))] times, hence once even when [len = 0]
    and no byte is written; Win32 writes inside the [len] bytes only, and
    with [len = 0] it makes no call and leaves the whole state as it
    was. *)
Theorem fill_effects {G : Type} (order : endianness) (size_bits : Z)
    (random_rand LWIP_RAND : G → Z * G) (rand_s : G → Z * Z * G)
    (buf len : Z) (w : world G) :
  0 ≤ len < 2 ^ size_bits → valid_buffer w buf len →
  (Contiki.contiki_prng_impl order size_bits random_rand buf len w
   = Return 1
       (World (stream_state random_rand (words_drawn 2 len) (rng w))
          (overwritten (mem w) buf (word_output order random_rand 2 len (rng w)))
          (draws w + words_drawn 2 len)) ∧
   Z.of_nat (words_drawn 2 len) = Z.max 1 ((len + 1) / 2)) ∧
  (LwIP.lwip_prng_impl order size_bits LWIP_RAND buf len w
   = Return 1
       (World (stream_state LWIP_RAND (words_drawn 4 len) (rng w))
          (overwritten (mem w) buf (word_output order LWIP_RAND 4 len (rng w)))
          (draws w + words_drawn 4 len)) ∧
   Z.of_nat (words_drawn 4 len) = Z.max 1 ((len + 3) / 4)) ∧
  (fill_contract size_bits (Win32.coap_prng_impl size_bits rand_s) ∧
   (len = 0 → Win32.coap_prng_impl size_bits rand_s buf len w = Return 1 w)).
Proof.
  intros Hlen (Hbuf & _ & Hm).
  assert (Hw : ∀ sz, 0 < sz →
            Z.of_nat (words_drawn sz len) = Z.max 1 ((len + (sz - 1)) / sz)).
  { intros sz Hsz. unfold words_drawn, loop_rounds.
    replace (len + (sz - 1)) with ((len - 1) + 1 * sz) by lia.
    rewrite Z.div_add by lia.
    destruct (decide (len = 0)) as [->|].
    - assert ((0 - 1) / sz < 0) by (apply Z.div_lt_upper_bound; lia).
      assert (-1 ≤ (0 - 1) / sz) by (apply Z.div_le_lower_bound; lia). lia.
    - assert (0 ≤ (len - 1) / sz) by (apply Z.div_pos; lia). lia. }
  split; [|split].
  - split; [by apply word_prng_impl_spec|]. by rewrite Hw.
  - split; [by apply word_prng_impl_spec|]. by rewrite Hw.
  - split; [apply coap_prng_impl_contract|]. intros ->. apply fill_fuel_zero.
Qed.

Lemma coap_prng_impl_fails {G} size_bits (rand_s : G → Z * Z * G)
    buf len (w : world G) k ws g' :
  0 ≤ len < 2 ^ size_bits → valid_buffer w buf len →
  fails_after rand_s k (rng w) ws g' → 4 * Z.of_nat k < len →
  Win32.coap_prng_impl size_bits rand_s buf len w
  = Return 0
      (World g' (overwritten (mem w) buf (le_bytes ws))
         (draws w + Datatypes.S k)).
Proof.
  intros Hlen (Hbuf & _ & Hm) (g1 & status & x & Hs & Hx & Hst) Hk.
  unfold Win32.coap_prng_impl.
  apply (fill_fuel_fails _ _ _ _ _ _ Hs _ _ _ _ status x); (done || lia).
Qed.

Lemma coap_prng_impl_succeeds {G} size_bits (rand_s : G → Z * Z * G)
    buf len (w : world G) ws g' :
  0 ≤ len < 2 ^ size_bits → valid_buffer w buf len →
  succeeds rand_s (chunks len) (rng w) ws g' →
  Win32.coap_prng_impl size_bits rand_s buf len w
  = Return 1
      (World g' (overwritten (mem w) buf (take (Z.to_nat len) (le_bytes ws)))
         (draws w + chunks len)).
Proof.
  intros Hlen (Hbuf & _ & Hm) Hs. unfold Win32.coap_prng_impl.
  apply (fill_fuel_succeeds _ _ _ _ _ _ Hs); try (done || lia).
  apply chunks_le; lia.
Qed.

(** C4. In the Win32 back end a nonzero status of [rand_s] ends the call at
    once with 0: the loop body returns without touching memory, no further
    call of [rand_s] is made (after [k] successful calls the count is
    [k + 1] and the generator is in the state the failing call left), and
    the bytes from [4 * k] on keep their old values.  A call that returns 1
    has made exactly one successful [rand_s] call per 4-byte chunk. *)
Theorem rand_s_failure_returns_0 {G : Type} (size_bits : Z)
    (rand_s : G → Z * Z * G) (buf len : Z) (w : world G) :
  0 ≤ len < 2 ^ size_bits → valid_buffer w buf len →
  (∀ l status x g',
     rand_s (rng w) = (status, x, g') → status ≠ 0 →
     Win32.coap_body size_bits rand_s (l, w)
     = Return 0 (l, World g' (mem w) (Datatypes.S (draws w)))) ∧
  (∀ k ws g',
     fails_after rand_s k (rng w) ws g' → 4 * Z.of_nat k < len →
     ∃ m',
       Win32.coap_prng_impl size_bits rand_s buf len w
       = Return 0 (World g' m' (draws w + Datatypes.S k)) ∧
       same_outside (mem w) m' buf (4 * Z.of_nat k)) ∧
  (∀ ws g',
     succeeds rand_s (chunks len) (rng w) ws g' →
     ∃ m',
       Win32.coap_prng_impl size_bits rand_s buf len w
       = Return 1 (World g' m' (draws w + chunks len)) ∧
       Z.of_nat (length ws) = (len + 3) / 4).
Proof.
  intros Hlen Hvalid. split; [|split].
  - intros l status x g' Hx Hst. by apply (coap_body_fail _ _ _ _ status x).
  - intros k ws g' Hf Hk. eexists. split.
    + by apply coap_prng_impl_fails.
    + destruct Hf as (g1 & _ & _ & Hs & _). destruct Hvalid as (? & ? & ?).
      apply overwritten_same_outside;
        rewrite ?length_le_bytes, ?(succeeds_length _ _ _ _ _ Hs); lia.
  - intros ws g' Hs. eexists. split.
    + by apply coap_prng_impl_succeeds.
    + rewrite (succeeds_length _ _ _ _ _ Hs). unfold chunks.
      assert (0 ≤ (len + 3) / 4) by (apply Z.div_pos; lia). lia.
Qed.

(** C5. If [rand_s] fails on call [k + 1] after [k] successful words, with
    [4 * k < len], the Win32 back end returns 0 and the memory is the old
    one with the little-endian bytes of those [k] words written from [buf]
    on: exactly [4 * k] bytes, every byte from index [4 * k] of the buffer
    on unchanged. *)
Theorem rand_s_failure_keeps_prefix {G : Type} (size_bits : Z)
    (rand_s : G → Z * Z * G) (buf len : Z) (w : world G)
    (k : nat) (ws : list Z) (g' : G) :
  0 ≤ len < 2 ^ size_bits → valid_buffer w buf len →
  fails_after rand_s k (rng w) ws g' → 4 * Z.of_nat k < len →
  ∃ w',
    Win32.coap_prng_impl size_bits rand_s buf len w = Return 0 w' ∧
    mem w' = overwritten (mem w) buf (le_bytes ws) ∧
    Z.of_nat (length (le_bytes ws)) = 4 * Z.of_nat k ∧
    take (4 * k) (drop (Z.to_nat buf) (mem w')) = le_bytes ws ∧
    same_outside (mem w) (mem w') buf (4 * Z.of_nat k).
Proof.
  intros Hlen Hvalid Hf Hk. eexists. split; [by apply coap_prng_impl_fails|].
  destruct Hf as (g1 & _ & _ & Hs & _). destruct Hvalid as (? & ? & ?).
  assert (Hl : length (le_bytes ws) = (4 * k)%nat)
    by (by rewrite length_le_bytes, (succeeds_length _ _ _ _ _ Hs)).
  cbn [mem]. split; [done|]. split; [lia|]. split.
  - unfold overwritten.
    rewrite drop_app_length' by (rewrite length_take; lia).
    by rewrite take_app_length' by done.
  - apply overwritten_same_outside; lia.
Qed.

(** C6. [contiki_prng_impl] with [len = 5] calls [random_rand] exactly
    three times and writes exactly five bytes: the two bytes of the first
    word, the two bytes of the second and the first byte of the third.  A
    buffer of five bytes is enough. *)
Theorem contiki_length_5 {G : Type} (order : endianness) (size_bits : Z)
    (random_rand : G → Z * G) (buf : Z) (w : world G) :
  5 < 2 ^ size_bits → valid_buffer w buf 5 →
  let '(r1, g1) := random_rand (rng w) in
  let '(r2, g2) := random_rand g1 in
  let '(r3, g3) := random_rand g2 in
  let bytes :=
    object_bytes order 2 (r1 mod 2 ^ 16) ++
    object_bytes order 2 (r2 mod 2 ^ 16) ++
    take 1 (object_bytes order 2 (r3 mod 2 ^ 16)) in
  Contiki.contiki_prng_impl order size_bits random_rand buf 5 w
  = Return 1 (World g3 (overwritten (mem w) buf bytes) (draws w + 3)) ∧
  length bytes = 5%nat ∧
  same_outside (mem w) (overwritten (mem w) buf bytes) buf 5.
Proof.
  intros Hsz (Hbuf & _ & Hm).
  pose proof (word_prng_impl_spec order size_bits random_rand 2 eq_refl buf 5 w)
    as Hspec.
  unfold Contiki.contiki_prng_impl. rewrite Hspec by lia. clear Hspec.
  change (words_drawn 2 5) with 3%nat. cbn [stream_state stream_words].
  destruct (random_rand (rng w)) as [r1 g1]. cbn [fst snd].
  destruct (random_rand g1) as [r2 g2]. cbn [fst snd].
  destruct (random_rand g2) as [r3 g3]. cbn [fst snd].
  assert (Hl : ∀ x, length (object_bytes order 2 x) = 2%nat).
  { intros x. apply Nat2Z.inj. by rewrite length_object_bytes. }
  assert (Hbytes :
    take (Z.to_nat 5)
      (stream_bytes order 2 [r1 mod 2 ^ (8 * 2); r2 mod 2 ^ (8 * 2); r3 mod 2 ^ (8 * 2)])
    = object_bytes order 2 (r1 mod 2 ^ 16) ++
      object_bytes order 2 (r2 mod 2 ^ 16) ++
      take 1 (object_bytes order 2 (r3 mod 2 ^ 16))).
  { change (stream_bytes order 2 [?a; ?b; ?c])
      with (object_bytes order 2 a ++ object_bytes order 2 b ++
            object_bytes order 2 c ++ []).
    rewrite app_nil_r.
    rewrite take_app_ge by (rewrite !Hl; lia).
    rewrite take_app_ge by (rewrite !Hl; lia).
    rewrite !Hl. done. }
  rewrite Hbytes.
  assert (Hlen : length (object_bytes order 2 (r1 mod 2 ^ 16) ++
                  object_bytes order 2 (r2 mod 2 ^ 16) ++
                  take 1 (object_bytes order 2 (r3 mod 2 ^ 16))) = 5%nat).
  { rewrite !length_app, length_take, !Hl. done. }
  split; [done|]. split; [done|].
  apply overwritten_same_outside; lia.
Qed.

Lemma overwritten_read m p bytes :
  0 ≤ p → p + Z.of_nat (length bytes) ≤ Z.of_nat (length m) →
  take (length bytes) (drop (Z.to_nat p) (overwritten m p bytes)) = bytes.
Proof.
  intros Hp Hlen. unfold overwritten.
  rewrite drop_app_length' by (rewrite length_take; lia).
  by rewrite take_app_length.
Qed.

Lemma overwritten_again m p bs1 bs2 :
  0 ≤ p → p + Z.of_nat (length bs1) ≤ Z.of_nat (length m) →
  length bs2 = length bs1 →
  overwritten (overwritten m p bs1) p bs2 = overwritten m p bs2.
Proof.
  intros Hp Hlen Hbs. unfold overwritten.
  assert (Hl : length (take (Z.to_nat p) m) = Z.to_nat p)
    by (rewrite length_take; lia).
  rewrite take_app_length' by done. do 2 f_equal.
  rewrite (assoc_L (++)), drop_app_ge by (rewrite length_app; lia).
  rewrite length_app, Hl, drop_drop. f_equal. lia.
Qed.

Lemma contiki_seeded_fill {G} order size_bits (random_rand : G → Z * G)
    (random_init : Z → G → G) s N buf (w : world G) :
  0 ≤ N < 2 ^ size_bits → valid_buffer w buf N →
  Contiki.contiki_prng_impl order size_bits random_rand buf N
    (Contiki.prng_init random_init (Contiki.lit s) w)
  = Return 1
      (World
         (stream_state random_rand (words_drawn 2 N)
            (random_init (s mod 2 ^ 16) (rng w)))
         (overwritten (mem w) buf
            (word_output order random_rand 2 N
               (random_init (s mod 2 ^ 16) (rng w))))
         (draws w + words_drawn 2 N)).
Proof.
  intros HN (Hbuf & _ & Hm). unfold Contiki.contiki_prng_impl.
  by rewrite word_prng_impl_spec by done.
Qed.

(** C7. Let [random_init] set the generator state from the seed alone.
    Then seeding with [s] and filling [N] bytes, twice in a row with the
    seed applied again before the second run, leaves the same bytes in the
    buffer both times; and started from any other state and any other
    buffer the [N] bytes delivered are the same: they depend on the seed
    and the length only. *)
Theorem seeded_fill_reproducible {G : Type} (order : endianness)
    (size_bits : Z) (random_rand : G → Z * G) (random_init : Z → G → G)
    (s N buf : Z) (w : world G) :
  (∀ seed g1 g2, random_init seed g1 = random_init seed g2) →
  0 ≤ N < 2 ^ size_bits → valid_buffer w buf N →
  let seed_and_fill b w0 :=
    Contiki.contiki_prng_impl order size_bits random_rand b N
      (Contiki.prng_init random_init (Contiki.lit s) w0) in
  ∃ w1 w2,
    seed_and_fill buf w = Return 1 w1 ∧
    seed_and_fill buf w1 = Return 1 w2 ∧
    mem w2 = mem w1 ∧
    ∀ buf' w', valid_buffer w' buf' N →
      ∃ w1',
        seed_and_fill buf' w' = Return 1 w1' ∧
        take (Z.to_nat N) (drop (Z.to_nat buf') (mem w1'))
        = take (Z.to_nat N) (drop (Z.to_nat buf) (mem w1)).
Proof.
  intros Hreset HN Hvalid. pose proof Hvalid as (Hbuf & _ & Hm). simpl.
  set (out := word_output order random_rand 2 N
                (random_init (s mod 2 ^ 16) (rng w))).
  assert (Hsame : ∀ g,
            word_output order random_rand 2 N (random_init (s mod 2 ^ 16) g)
            = out)
    by (intros g; unfold out; by rewrite (Hreset _ g (rng w))).
  assert (Hout : length out = Z.to_nat N).
  { apply Nat2Z.inj. unfold out, word_output. rewrite length_take_stream; lia. }
  eexists _, _. split; [by apply contiki_seeded_fill|].
  split; [apply contiki_seeded_fill; [done|]|].
  { split; [done|]. split; [lia|]. cbn [mem].
    rewrite length_overwritten; fold out; rewrite ?Hout; lia. }
  cbn [mem rng]. rewrite !Hsame. split.
  { apply overwritten_again; rewrite ?Hout; lia. }
  intros buf' w' Hvalid'. pose proof Hvalid' as (Hbuf' & _ & Hm').
  eexists. split; [by apply contiki_seeded_fill|]. cbn [mem].
  rewrite !Hsame, <- Hout.
  rewrite !overwritten_read; rewrite ?Hout; (done || lia).
Qed.

(** C8. On LwIP and on Win32 [prng_init(Value)] expands to nothing: for
    every argument expression, whatever its value and whatever effects it
    would have if evaluated, the state after it is the state before it,
    and a following [fill] behaves as if [prng_init] had not been there. *)
Theorem prng_init_noop {G : Type} (order : endianness) (size_bits : Z)
    (LWIP_RAND : G → Z * G) (rand_s : G → Z * Z * G)
    (Value : world G → Z * world G) (buf len : Z) (w : world G) :
  LwIP.prng_init Value w = w ∧
  Win32.prng_init Value w = w ∧
  LwIP.lwip_prng_impl order size_bits LWIP_RAND buf len (LwIP.prng_init Value w)
  = LwIP.lwip_prng_impl order size_bits LWIP_RAND buf len w ∧
  Win32.coap_prng_impl size_bits rand_s buf len (Win32.prng_init Value w)
  = Win32.coap_prng_impl size_bits rand_s buf len w.
Proof. done. Qed.

(** C9. With total host generators every back end terminates, for every
    [len] and whatever the buffer: a budget of [len] iterations is never
    exhausted and any larger budget gives the same result.  In the Contiki
    and LwIP loops each iteration takes [sizeof(v)] off [len]; each
    iteration of the Win32 loop that does not return stores
    [min(len, 4) ≥ 1] bytes further and takes as much off [len]. *)
Theorem fill_terminates {G : Type} (order : endianness) (size_bits : Z)
    (random_rand LWIP_RAND : G → Z * G) (rand_s : G → Z * Z * G)
    (buf0 len0 : Z) (w : world G) :
  0 ≤ len0 < 2 ^ size_bits →
  (Contiki.contiki_prng_impl order size_bits random_rand buf0 len0 w ≠ OutOfFuel ∧
   LwIP.lwip_prng_impl order size_bits LWIP_RAND buf0 len0 w ≠ OutOfFuel ∧
   Win32.coap_prng_impl size_bits rand_s buf0 len0 w ≠ OutOfFuel) ∧
  (∀ fuel, (Z.to_nat len0 ≤ fuel)%nat →
     Contiki.contiki_prng_impl_fuel order size_bits random_rand fuel buf0 len0 w
     = Contiki.contiki_prng_impl order size_bits random_rand buf0 len0 w ∧
     LwIP.lwip_prng_impl_fuel order size_bits LWIP_RAND fuel buf0 len0 w
     = LwIP.lwip_prng_impl order size_bits LWIP_RAND buf0 len0 w ∧
     Win32.coap_prng_impl_fuel size_bits rand_s fuel buf0 len0 w
     = Win32.coap_prng_impl size_bits rand_s buf0 len0 w) ∧
  (∀ v0 l' w',
     word_cond 2 (Locals buf0 len0 v0, w) = true →
     word_body order size_bits random_rand 2 (Locals buf0 len0 v0, w)
     = Next (l', w') →
     len l' = len0 - 2 ∧ 0 < len l' < len0) ∧
  (∀ v0 l' w',
     word_cond 4 (Locals buf0 len0 v0, w) = true →
     word_body order size_bits LWIP_RAND 4 (Locals buf0 len0 v0, w)
     = Next (l', w') →
     len l' = len0 - 4 ∧ 0 < len l' < len0) ∧
  (∀ l' w',
     Win32.coap_cond (Win32.Locals buf0 len0, w) = true →
     Win32.coap_body size_bits rand_s (Win32.Locals buf0 len0, w)
     = Next (l', w') →
     Win32.buf l' = buf0 + Z.min len0 4 ∧
     Win32.len l' = len0 - Z.min len0 4 ∧ 0 ≤ Win32.len l' < len0).
Proof.
  intros Hlen.
  pose proof (loop_rounds_le 2 eq_refl len0 (proj1 Hlen)) as H2.
  pose proof (loop_rounds_le 4 eq_refl len0 (proj1 Hlen)) as H4.
  pose proof (chunks_le len0 (proj1 Hlen)) as Hc.
  split; [|split; [|split; [|split]]].
  - split; [|split].
    + by apply word_prng_impl_terminates.
    + by apply word_prng_impl_terminates.
    + by apply fill_fuel_terminates.
  - intros fuel Hfuel. split; [|split].
    + apply word_prng_impl_terminates; (done || lia).
    + apply word_prng_impl_terminates; (done || lia).
    + apply fill_fuel_closed; (done || lia).
  - intros v0 l' w' Hcond Hbody.
    by destruct (word_body_decreases order size_bits random_rand 2 eq_refl
                   (Locals buf0 len0 v0) w l' w' Hlen Hcond Hbody) as (? & ? & ?).
  - intros v0 l' w' Hcond Hbody.
    by destruct (word_body_decreases order size_bits LWIP_RAND 4 eq_refl
                   (Locals buf0 len0 v0) w l' w' Hlen Hcond Hbody) as (? & ? & ?).
  - intros l' w' Hcond Hbody. unfold Win32.coap_cond in Hcond.
    apply bool_decide_eq_true_1 in Hcond. simpl in Hcond.
    destruct (coap_body_cases size_bits rand_s buf0 len0 w)
      as [[w1 Hb]|[Hb|[w1 Hb]]]; [lia|..]; rewrite Hb in Hbody; try done.
    simplify_eq. simpl. lia.
Qed.

(** C10. On Contiki [prng_init] hands [random_init] the seed reduced
    modulo [2^16]: two seeds congruent modulo [2^16] put the generator in
    the same state, and every [fill] after them gives the same result. *)
Theorem prng_init_truncates_seed {G : Type} (order : endianness)
    (size_bits : Z) (random_rand : G → Z * G) (random_init : Z → G → G)
    (s1 s2 : Z) (w : world G) :
  s1 mod 2 ^ 16 = s2 mod 2 ^ 16 →
  Contiki.prng_init random_init (Contiki.lit s1) w
  = World (random_init (s1 mod 2 ^ 16) (rng w)) (mem w) (draws w) ∧
  Contiki.prng_init random_init (Contiki.lit s1) w
  = Contiki.prng_init random_init (Contiki.lit s2) w ∧
  ∀ buf len,
    Contiki.contiki_prng_impl order size_bits random_rand buf len
      (Contiki.prng_init random_init (Contiki.lit s1) w)
    = Contiki.contiki_prng_impl order size_bits random_rand buf len
        (Contiki.prng_init random_init (Contiki.lit s2) w).
Proof.
  intros Hs.
  assert (Heq : Contiki.prng_init random_init (Contiki.lit s1) w
                = Contiki.prng_init random_init (Contiki.lit s2) w)
    by (unfold Contiki.prng_init, Contiki.lit; by rewrite Hs).
  split; [done|]. split; [done|]. intros buf len. by rewrite Heq.
Qed.

(** ** The theorems at concrete inputs *)

(** Five bytes into a four-byte object: the last store is outside it. *)
Example contiki_overrun_faults :
  Contiki.contiki_prng_impl LittleEndian 32 Sample.random_rand 0 5 w_sample
  = Fault.
Proof. vm_compute. reflexivity. Qed.

(** The same five bytes on a big-endian host: each word high byte first,
    and of the third word its high byte. *)
Example contiki_big_endian_5 :
  Contiki.contiki_prng_impl BigEndian 32 Sample.random_rand 1 5 w_sample8
  = Return 1 (World 662824084 [0; 65; 198; 22; 126; 39; 0; 0] 3).
Proof. vm_compute. reflexivity. Qed.

(** A script whose two calls succeed fills six bytes and returns 1. *)
Example coap_two_words :
  Win32.coap_prng_impl 32 Sample.rand_s 1 6
    (World [(0, 16909060); (0, 84281096)] (Sample.zeros 8) 0)
  = Return 1 (World [] [0; 4; 3; 2; 1; 8; 7; 0] 2).
Proof. vm_compute. reflexivity. Qed.

Lemma script_fails_after_one :
  fails_after Sample.rand_s 1 (rng w_script) [16909060] [].
Proof.
  exists [(5, 0)], 5, 0. split; [|split; [reflexivity|lia]].
  apply (succeeds_S Sample.rand_s 0 _ 16909060 [(5, 0)] [] [(5, 0)]);
    [reflexivity|constructor].
Defined.

(** The contract of C1 on the sample hosts: five bytes asked for at offset
    1 of an eight-byte object. *)
Lemma fill_writes_len_bytes_or_fails_witness :
  ∃ r bytes g' d',
    (r = 1 ∧ Z.of_nat (length bytes) = 5 ∨
     r = 0 ∧ Z.of_nat (length bytes) < 5) ∧
    Win32.coap_prng_impl 32 Sample.rand_s_ok 1 5 w_sample8
    = Return r (World g' (overwritten (mem w_sample8) 1 bytes) d') ∧
    same_outside (mem w_sample8) (overwritten (mem w_sample8) 1 bytes) 1 5.
Proof.
  destruct (fill_writes_len_bytes_or_fails LittleEndian 32
              Sample.random_rand Sample.LWIP_RAND Sample.rand_s_ok)
    as (_ & _ & Hwin).
  destruct (Hwin 1 5 (rng w_sample8) (draws w_sample8))
    as (r & bytes & g' & d' & Hr & Hm); [lia|lia|].
  exists r, bytes, g', d'. split; [exact Hr|].
  apply (Hm (mem w_sample8)). simpl. lia.
Defined.

(** C3 amended, at [len = 0]: Contiki has drawn one word, Win32 has changed
    nothing. *)
Lemma fill_effects_witness :
  0 ≤ 0 < 2 ^ 32 ∧ valid_buffer w_sample 0 0 ∧
  Contiki.contiki_prng_impl LittleEndian 32 Sample.random_rand 0 0 w_sample
  = Return 1 (World 1103527590 [0; 0; 0; 0] 1) ∧
  Win32.coap_prng_impl 32 Sample.rand_s_ok 0 0 w_sample = Return 1 w_sample.
Proof.
  assert (H1 : 0 ≤ 0 < 2 ^ 32) by lia.
  assert (H2 : valid_buffer w_sample 0 0) by (unfold valid_buffer; simpl; lia).
  destruct (fill_effects LittleEndian 32 Sample.random_rand Sample.LWIP_RAND
              Sample.rand_s_ok 0 0 w_sample H1 H2) as ([Hc _] & _ & _ & Hw).
  split; [exact H1|]. split; [exact H2|]. split.
  - rewrite Hc. vm_compute. reflexivity.
  - apply Hw. reflexivity.
Defined.

(** C4 on the script: one word, then a failure; two calls in all. *)
Lemma rand_s_failure_returns_0_witness :
  0 ≤ 6 < 2 ^ 32 ∧ valid_buffer w_script 1 6 ∧
  fails_after Sample.rand_s 1 (rng w_script) [16909060] [] ∧
  4 * Z.of_nat 1 < 6 ∧
  ∃ m',
    Win32.coap_prng_impl 32 Sample.rand_s 1 6 w_script
    = Return 0 (World [] m' 2) ∧
    same_outside (mem w_script) m' 1 4.
Proof.
  assert (H1 : 0 ≤ 6 < 2 ^ 32) by lia.
  assert (H2 : valid_buffer w_script 1 6) by (unfold valid_buffer; simpl; lia).
  assert (H3 : 4 * Z.of_nat 1 < 6) by lia.
  destruct (rand_s_failure_returns_0 32 Sample.rand_s 1 6 w_script H1 H2)
    as (_ & Hfail & _).
  split; [exact H1|]. split; [exact H2|].
  split; [exact script_fails_after_one|]. split; [exact H3|].
  exact (Hfail 1%nat [16909060] [] script_fails_after_one H3).
Defined.

(** C5 on the script: the four bytes of the first word stay in place. *)
Lemma rand_s_failure_keeps_prefix_witness :
  0 ≤ 6 < 2 ^ 32 ∧ valid_buffer w_script 1 6 ∧
  fails_after Sample.rand_s 1 (rng w_script) [16909060] [] ∧
  4 * Z.of_nat 1 < 6 ∧
  ∃ w',
    Win32.coap_prng_impl 32 Sample.rand_s 1 6 w_script = Return 0 w' ∧
    mem w' = [0; 4; 3; 2; 1; 0; 0; 0].
Proof.
  assert (H1 : 0 ≤ 6 < 2 ^ 32) by lia.
  assert (H2 : valid_buffer w_script 1 6) by (unfold valid_buffer; simpl; lia).
  assert (H3 : 4 * Z.of_nat 1 < 6) by lia.
  destruct (rand_s_failure_keeps_prefix 32 Sample.rand_s 1 6 w_script
              1%nat [16909060] [] H1 H2 script_fails_after_one H3)
    as (w' & Hret & Hmem & _).
  split; [exact H1|]. split; [exact H2|].
  split; [exact script_fails_after_one|]. split; [exact H3|].
  exists w'. split; [exact Hret|]. rewrite Hmem. vm_compute. reflexivity.
Defined.

(** C6 on the sample generator. *)
Lemma contiki_length_5_witness :
  5 < 2 ^ 32 ∧ valid_buffer w_sample8 1 5 ∧
  Contiki.contiki_prng_impl LittleEndian 32 Sample.random_rand 1 5 w_sample8
  = Return 1 (World 662824084 [0; 198; 65; 126; 22; 129; 0; 0] 3).
Proof.
  assert (H1 : 5 < 2 ^ 32) by lia.
  assert (H2 : valid_buffer w_sample8 1 5) by (unfold valid_buffer; simpl; lia).
  pose proof (contiki_length_5 LittleEndian 32 Sample.random_rand 1 w_sample8
                H1 H2) as H.
  split; [exact H1|]. split; [exact H2|].
  destruct (Sample.random_rand (rng w_sample8)) as [r1 g1] eqn:E1 in H.
  destruct (Sample.random_rand g1) as [r2 g2] eqn:E2 in H.
  destruct (Sample.random_rand g2) as [r3 g3] eqn:E3 in H.
  destruct H as (H & _). rewrite H.
  vm_compute in E1. injection E1 as <- <-.
  vm_compute in E2. injection E2 as <- <-.
  vm_compute in E3. injection E3 as <- <-.
  vm_compute. reflexivity.
Defined.

(** C7 on the sample generator, seed 42. *)
Lemma seeded_fill_reproducible_witness :
  (∀ seed g1 g2 : Z, Sample.random_init seed g1 = Sample.random_init seed g2) ∧
  0 ≤ 5 < 2 ^ 32 ∧ valid_buffer w_sample8 1 5 ∧
  ∃ w1 w2,
    Contiki.contiki_prng_impl LittleEndian 32 Sample.random_rand 1 5
      (Contiki.prng_init Sample.random_init (Contiki.lit 42) w_sample8)
    = Return 1 w1 ∧
    Contiki.contiki_prng_impl LittleEndian 32 Sample.random_rand 1 5
      (Contiki.prng_init Sample.random_init (Contiki.lit 42) w1)
    = Return 1 w2 ∧
    mem w2 = mem w1.
Proof.
  assert (H0 : ∀ seed g1 g2 : Z,
            Sample.random_init seed g1 = Sample.random_init seed g2)
    by (intros seed g1 g2; reflexivity).
  assert (H1 : 0 ≤ 5 < 2 ^ 32) by lia.
  assert (H2 : valid_buffer w_sample8 1 5) by (unfold valid_buffer; simpl; lia).
  destruct (seeded_fill_reproducible LittleEndian 32 Sample.random_rand
              Sample.random_init 42 5 1 w_sample8 H0 H1 H2)
    as (w1 & w2 & E1 & E2 & Hm & _).
  split; [exact H0|]. split; [exact H1|]. split; [exact H2|].
  exists w1, w2. split; [exact E1|]. split; [exact E2|exact Hm].
Defined.

(** C9 on the sample hosts: a budget of 100 iterations changes nothing. *)
Lemma fill_terminates_witness :
  0 ≤ 5 < 2 ^ 32 ∧
  Contiki.contiki_prng_impl_fuel LittleEndian 32 Sample.random_rand 100 1 5
    w_sample8
  = Return 1 (World 662824084 [0; 198; 65; 126; 22; 129; 0; 0] 3) ∧
  Win32.coap_prng_impl 32 Sample.rand_s_ok 1 5 w_sample8 ≠ OutOfFuel.
Proof.
  assert (H1 : 0 ≤ 5 < 2 ^ 32) by lia.
  destruct (fill_terminates LittleEndian 32 Sample.random_rand
              Sample.LWIP_RAND Sample.rand_s_ok 1 5 w_sample8 H1)
    as ((_ & _ & Hwin) & Hfuel & _).
  split; [exact H1|]. split; [|exact Hwin].
  destruct (Hfuel 100%nat) as (Hc & _); [simpl; lia|].
  rewrite Hc. vm_compute. reflexivity.
Defined.

(** C10 on the sample generator: seeds 42 and 42 + 2^16. *)
Lemma prng_init_truncates_seed_witness :
  42 mod 2 ^ 16 = 65578 mod 2 ^ 16 ∧
  Contiki.prng_init Sample.random_init (Contiki.lit 42) w_sample8
  = Contiki.prng_init Sample.random_init (Contiki.lit 65578) w_sample8 ∧
  Contiki.contiki_prng_impl LittleEndian 32 Sample.random_rand 1 5
    (Contiki.prng_init Sample.random_init (Contiki.lit 42) w_sample8)
  = Contiki.contiki_prng_impl LittleEndian 32 Sample.random_rand 1 5
      (Contiki.prng_init Sample.random_init (Contiki.lit 65578) w_sample8).
Proof.
  assert (H1 : 42 mod 2 ^ 16 = 65578 mod 2 ^ 16) by reflexivity.
  destruct (prng_init_truncates_seed LittleEndian 32 Sample.random_rand
              Sample.random_init 42 65578 w_sample8 H1) as (_ & Hs & Hf).
  split; [exact H1|]. split; [exact Hs|exact (Hf 1 5)].
Defined.

(** * Further properties of the back ends *)

(** ** Streams of words *)
Section WordStreams.
Context {G : Type}.
Variable order : endianness.
Variable size_bits : Z.
Variable rand : G → Z * G.
Variable sizeof_v : Z.
Hypothesis sizeof_pos : 0 < sizeof_v.

Local Abbreviation fill := (word_prng_impl order size_bits rand sizeof_v).
Local Abbreviation drawn := (words_drawn sizeof_v).
Local Abbreviation words := (stream_words rand sizeof_v).
Local Abbreviation state_after := (stream_state rand).
Local Abbreviation bytes_from := (stream_bytes order sizeof_v).
Local Abbreviation output := (word_output order rand sizeof_v).

Lemma stream_words_add n : ∀ k g,
  words (n + k) g = words n g ++ words k (state_after n g).
Proof.
  induction n as [|n IH]; intros k g; [done|].
  simpl. by rewrite IH.
Qed.

Lemma stream_state_add n : ∀ k g,
  state_after (n + k) g = state_after k (state_after n g).
Proof. induction n as [|n IH]; intros k g; [done|]. simpl. by rewrite IH. Qed.

Lemma stream_bytes_app ws1 ws2 :
  bytes_from (ws1 ++ ws2) = bytes_from ws1 ++ bytes_from ws2.
Proof. unfold stream_bytes. apply bind_app. Qed.

Lemma length_bytes_words n g :
  Z.of_nat (length (bytes_from (words n g))) = Z.of_nat n * sizeof_v.
Proof.
  by rewrite (length_stream_bytes order sizeof_v sizeof_pos),
    length_stream_words.
Qed.

(** A positive multiple of [sizeof(v)] takes exactly that many words. *)
Lemma words_drawn_multiple a :
  0 < a → a mod sizeof_v = 0 → Z.of_nat (drawn a) * sizeof_v = a.
Proof.
  intros Ha Hmod. unfold words_drawn, loop_rounds.
  apply Z.mod_divide in Hmod; [|lia]. destruct Hmod as [q ->].
  assert (0 < q) by nia.
  replace (q * sizeof_v - 1) with ((sizeof_v - 1) + (q - 1) * sizeof_v) by lia.
  rewrite Z.div_add, Z.div_small by lia. f_equal. lia.
Qed.

Lemma words_drawn_add a b :
  0 < a → 0 < b → a mod sizeof_v = 0 →
  drawn (a + b) = (drawn a + drawn b)%nat.
Proof.
  intros Ha Hb Hmod. pose proof (words_drawn_multiple a Ha Hmod) as Hq.
  unfold words_drawn, loop_rounds in *.
  replace (a + b - 1)
    with ((b - 1) + Z.of_nat (Datatypes.S (Z.to_nat ((a - 1) / sizeof_v))) * sizeof_v)
    by lia.
  rewrite Z.div_add by lia.
  assert (0 ≤ (b - 1) / sizeof_v) by (apply Z.div_pos; lia). lia.
Qed.

Lemma words_drawn_mono n k : n ≤ k → (drawn n ≤ drawn k)%nat.
Proof.
  intros Hnk. unfold words_drawn, loop_rounds.
  assert ((n - 1) / sizeof_v ≤ (k - 1) / sizeof_v)
    by (apply Z.div_le_mono; lia).
  lia.
Qed.

(** Asking for more bytes does not change the earlier ones. *)
Lemma word_output_prefix n k g :
  0 ≤ n ≤ k → output n g = take (Z.to_nat n) (output k g).
Proof.
  intros Hnk. unfold word_output.
  rewrite take_take, Nat.min_l by lia.
  pose proof (words_drawn_mono n k (proj2 Hnk)) as Hd.
  replace (drawn k) with (drawn n + (drawn k - drawn n))%nat by lia.
  rewrite stream_words_add, stream_bytes_app.
  rewrite take_app_le; [done|].
  pose proof (length_bytes_words (drawn n) g).
  pose proof (words_drawn_enough sizeof_v sizeof_pos n). lia.
Qed.

(** Two calls, the first for a positive multiple of [sizeof(v)] bytes, do
    what one call for the sum does. *)
Lemma word_prng_impl_split buf a b w :
  0 < a → 0 < b → a mod sizeof_v = 0 → a + b < 2 ^ size_bits →
  valid_buffer w buf (a + b) →
  ∃ w1, fill buf a w = Return 1 w1 ∧ fill (buf + a) b w1 = fill buf (a + b) w.
Proof.
  intros Ha Hb Hmod Hsz (Hbuf & _ & Hm).
  pose proof (words_drawn_multiple a Ha Hmod) as Hq.
  pose proof (length_bytes_words (drawn a) (rng w)) as Hl.
  assert (Hout : output a (rng w) = bytes_from (words (drawn a) (rng w))).
  { unfold word_output. apply take_ge. lia. }
  eexists. split; [apply word_prng_impl_spec; (done || lia)|].
  fold (output a (rng w)). rewrite Hout.
  assert (Hl' : Z.of_nat (length (bytes_from (words (drawn a) (rng w)))) = a)
    by lia.
  rewrite (word_prng_impl_spec _ _ _ _ sizeof_pos buf (a + b) w) by (done || lia).
  rewrite word_prng_impl_spec; cbn [mem rng draws];
    [ | done | lia | lia | rewrite length_overwritten; lia ].
  rewrite words_drawn_add, stream_words_add, stream_state_add,
    stream_bytes_app by done.
  f_equal. f_equal; [|lia].
  replace (buf + a)
    with (buf + Z.of_nat (length (bytes_from (words (drawn a) (rng w)))))
    by lia.
  rewrite overwritten_app by lia. f_equal.
  rewrite take_app_ge by lia. do 2 f_equal. lia.
Qed.
End WordStreams.

(** ** Buffers that are too short *)



Section WordBounds.
Context {G : Type}.
Variable order : endianness.
Variable size_bits : Z.
Variable rand : G → Z * G.
Variable sizeof_v : Z.
Hypothesis sizeof_pos : 0 < sizeof_v.

Local Abbreviation rest := (word_rest order size_bits rand sizeof_v).
Local Abbreviation rounds := (loop_rounds sizeof_v).


End WordBounds.

(** ** Runs of [rand_s], continued *)
Section Win32More.
Context {G : Type}.
Variable size_bits : Z.
Variable rand_s : G → Z * Z * G.

Local Abbreviation fill := (Win32.coap_prng_impl size_bits rand_s).
Local Abbreviation fill_fuel := (Win32.coap_prng_impl_fuel size_bits rand_s).

Lemma succeeds_split n : ∀ k g ws g',
  succeeds rand_s (n + k) g ws g' →
  ∃ ws1 ws2 g1,
    ws = ws1 ++ ws2 ∧ succeeds rand_s n g ws1 g1 ∧ succeeds rand_s k g1 ws2 g'.
Proof.
  induction n as [|n IH]; intros k g ws g' Hs.
  - exists [], ws, g. split; [done|]. split; [constructor|done].
  - inversion Hs as [|? ? x g1 ws' ? Hr Hs']; subst.
    destruct (IH _ _ _ _ Hs') as (ws1 & ws2 & g2 & -> & H1 & H2).
    exists (x mod 2 ^ 32 :: ws1), ws2, g2.
    split; [done|]. split; [by econstructor|done].
Qed.

(** The outcome of the next [k] calls is determined by the state. *)
Lemma succeeds_unique k g ws g' :
  succeeds rand_s k g ws g' →
  ∀ ws2 g2, succeeds rand_s k g ws2 g2 → ws2 = ws ∧ g2 = g'.
Proof.
  induction 1 as [g|k g x g1 ws g' Hr Hs IH]; intros ws2 g2 Hs2.
  - by inversion Hs2.
  - inversion Hs2 as [|? ? y g3 ws3 ? Hr' Hs']; subst.
    rewrite Hr in Hr'. simplify_eq.
    destruct (IH _ _ Hs') as [-> ->]. done.
Qed.

(** A run that fails after [j] calls does not have [k > j] successes. *)
Lemma fails_after_not_succeeds j k g ws g' ws2 g2 :
  fails_after rand_s j g ws g' → (j < k)%nat →
  ¬ succeeds rand_s k g ws2 g2.
Proof.
  intros (g1 & status & x & Hs & Hx & Hst) Hjk Hk.
  replace k with (j + Datatypes.S (k - j - 1))%nat in Hk by lia.
  destruct (succeeds_split _ _ _ _ _ Hk) as (ws1 & ws3 & g3 & _ & H1 & H3).
  destruct (succeeds_unique _ _ _ _ Hs _ _ H1) as [_ ->].
  inversion H3 as [|? ? y g4 ? ? Hr _]; subst.
  rewrite Hx in Hr. simplify_eq.
Qed.

Lemma le_bytes_app ws1 ws2 : le_bytes (ws1 ++ ws2) = le_bytes ws1 ++ le_bytes ws2.
Proof. unfold le_bytes. apply bind_app. Qed.

Lemma chunks_multiple a :
  0 ≤ a → a mod 4 = 0 → 4 * Z.of_nat (chunks a) = a.
Proof.
  intros Ha Hmod. unfold chunks.
  apply Z.mod_divide in Hmod; [|lia]. destruct Hmod as [q ->].
  replace (q * 4 + 3) with (3 + q * 4) by lia.
  rewrite Z.div_add, Z.div_small by lia. lia.
Qed.

Lemma chunks_add a b :
  0 ≤ a → 0 ≤ b → a mod 4 = 0 → chunks (a + b) = (chunks a + chunks b)%nat.
Proof.
  intros Ha Hb Hmod. pose proof (chunks_multiple a Ha Hmod) as Hq.
  unfold chunks in *.
  replace (a + b + 3) with ((b + 3) + Z.of_nat (Z.to_nat ((a + 3) / 4)) * 4)
    by lia.
  rewrite Z.div_add by lia.
  assert (0 ≤ (b + 3) / 4) by (apply Z.div_pos; lia). lia.
Qed.

Lemma chunks_bound k len :
  0 ≤ len → (k < chunks len)%nat → 4 * Z.of_nat k < len.
Proof.
  unfold chunks. intros Hlen Hk.
  pose proof (Z.mod_pos_bound (len + 3) 4).
  pose proof (Z.div_mod (len + 3) 4). lia.
Qed.

Lemma chunks_enough len : 0 ≤ len → len ≤ 4 * Z.of_nat (chunks len).
Proof.
  unfold chunks. intros Hlen.
  assert (0 ≤ (len + 3) / 4) by (apply Z.div_pos; lia).
  pose proof (Z.mod_pos_bound (len + 3) 4).
  pose proof (Z.div_mod (len + 3) 4). lia.
Qed.
End Win32More.

Lemma overwritten_read_at m p bytes (off n : nat) :
  0 ≤ p → p + Z.of_nat (length bytes) ≤ Z.of_nat (length m) →
  (off + n ≤ length bytes)%nat →
  take n (drop (Z.to_nat p + off) (overwritten m p bytes))
  = take n (drop off bytes).
Proof.
  intros Hp Hlen Hoff. unfold overwritten.
  assert (Hl : length (take (Z.to_nat p) m) = Z.to_nat p)
    by (rewrite length_take; lia).
  rewrite drop_app_ge by lia. rewrite Hl.
  replace (Z.to_nat p + off - Z.to_nat p)%nat with off by lia.
  rewrite drop_app_le by lia.
  apply take_app_le. rewrite length_drop. lia.
Qed.

Lemma take_drop_take {A} (l : list A) (off n k : nat) :
  (off + n ≤ k)%nat → take n (drop off (take k l)) = take n (drop off l).
Proof.
  intros Hk. rewrite !take_drop_commute, take_take. f_equal. f_equal. lia.
Qed.

Lemma le_bytes_word ws : ∀ (j : nat) x,
  ws !! j = Some x →
  take 4 (drop (4 * j) (le_bytes ws)) = Z_to_little_endian 4 8 x.
Proof.
  induction ws as [|y ws IH]; intros j x Hj; [done|].
  change (le_bytes (y :: ws)) with (Z_to_little_endian 4 8 y ++ le_bytes ws).
  assert (Hl : length (Z_to_little_endian 4 8 y) = 4%nat)
    by (apply Nat2Z.inj; by rewrite length_Z_to_little_endian).
  destruct j as [|j]; simpl in Hj.
  - simplify_eq. rewrite Nat.mul_0_r, drop_0. by apply take_app_length'.
  - rewrite drop_app_ge by lia. rewrite Hl.
    replace (4 * Datatypes.S j - 4)%nat with (4 * j)%nat by lia.
    by apply IH.
Qed.

Lemma succeeds_range {G} (rand_s : G → Z * Z * G) k g ws g' :
  succeeds rand_s k g ws g' → Forall (λ x, 0 ≤ x < 2 ^ 32) ws.
Proof.
  induction 1; constructor; [|done]. apply Z.mod_pos_bound. lia.
Qed.

(** X1. The Win32 back end reports success exactly when every one of the
    [ceil(len / 4)] calls of [rand_s] succeeds, and failure exactly when one
    of them fails; whatever it returns, it has called [rand_s] at most
    [ceil(len / 4)] times. *)
Theorem coap_prng_impl_result {G : Type} (size_bits : Z)
    (rand_s : G → Z * Z * G) (buf len : Z) (w : world G) :
  0 ≤ len < 2 ^ size_bits → valid_buffer w buf len →
  ((∃ w', Win32.coap_prng_impl size_bits rand_s buf len w = Return 1 w') ↔
   (∃ ws g', succeeds rand_s (chunks len) (rng w) ws g')) ∧
  ((∃ w', Win32.coap_prng_impl size_bits rand_s buf len w = Return 0 w') ↔
   (∃ k ws g', (k < chunks len)%nat ∧ fails_after rand_s k (rng w) ws g')) ∧
  (∃ r w',
     Win32.coap_prng_impl size_bits rand_s buf len w = Return r w' ∧
     (draws w ≤ draws w' ≤ draws w + chunks len)%nat).
Proof.
  intros Hlen Hvalid.
  destruct (succeeds_or_fails rand_s (chunks len) (rng w))
    as [(ws & g' & Hs)|(k & ws & g' & Hk & Hf)].
  - pose proof (coap_prng_impl_succeeds size_bits rand_s buf len w ws g'
                  Hlen Hvalid Hs) as Hret.
    split; [|split].
    + split; [by eauto|]. intros _. by eauto.
    + split.
      * intros [w' Hw']. rewrite Hret in Hw'. done.
      * intros (k & ws2 & g2 & Hk & Hf).
        by destruct (fails_after_not_succeeds rand_s _ _ _ _ _ _ _ Hf Hk Hs).
    + eexists _, _. split; [exact Hret|]. simpl. lia.
  - pose proof (chunks_bound k len (proj1 Hlen) Hk) as Hlt.
    pose proof (coap_prng_impl_fails size_bits rand_s buf len w k ws g'
                  Hlen Hvalid Hf Hlt) as Hret.
    split; [|split].
    + split.
      * intros [w' Hw']. rewrite Hret in Hw'. done.
      * intros (ws2 & g2 & Hs).
        by destruct (fails_after_not_succeeds rand_s _ _ _ _ _ _ _ Hf Hk Hs).
    + split; [|by eauto]. intros _. by eauto 10.
    + eexists _, _. split; [exact Hret|]. simpl. lia.
Qed.

Lemma overwritten_take_app m p bs1 bs2 (a : Z) :
  0 ≤ p → Z.of_nat (length bs1) = a →
  p + a ≤ Z.of_nat (length m) →
  overwritten (overwritten m p (take (Z.to_nat a) bs1)) (p + a) bs2
  = overwritten m p (bs1 ++ bs2).
Proof.
  intros Hp Hl Hm. rewrite take_ge by lia.
  rewrite <- Hl. apply overwritten_app; lia.
Qed.

(** X2. Filling [a + b] bytes in two calls of the Win32 back end, split at
    a multiple of 4, is the same as filling them in one call: if the first
    call returns 1 the second call ends in the very result of the single
    call (return value, memory, generator and number of calls), and if the
    first call returns 0 the single call returns 0 in the same state. *)
Theorem coap_prng_impl_split {G : Type} (size_bits : Z)
    (rand_s : G → Z * Z * G) (buf a b : Z) (w : world G) :
  0 ≤ a → 0 ≤ b → a mod 4 = 0 → a + b < 2 ^ size_bits →
  valid_buffer w buf (a + b) →
  ∃ r w1,
    Win32.coap_prng_impl size_bits rand_s buf a w = Return r w1 ∧
    (r = 1 ∧
     Win32.coap_prng_impl size_bits rand_s (buf + a) b w1
     = Win32.coap_prng_impl size_bits rand_s buf (a + b) w ∨
     r = 0 ∧
     Win32.coap_prng_impl size_bits rand_s buf (a + b) w = Return 0 w1).
Proof.
  intros Ha Hb Hmod Hsz Hvalid. pose proof Hvalid as (Hbuf & _ & Hm).
  assert (Hva : valid_buffer w buf a) by (unfold valid_buffer; lia).
  pose proof (chunks_multiple a Ha Hmod) as Hq.
  pose proof (chunks_add a b Ha Hb Hmod) as Hadd.
  destruct (succeeds_or_fails rand_s (chunks (a + b)) (rng w))
    as [(ws & g' & Hs)|(j & ws & g' & Hj & Hf)].
  - (* every call succeeds *)
    pose proof (coap_prng_impl_succeeds size_bits rand_s buf (a + b) w ws g'
                  ltac:(lia) Hvalid Hs) as Hall.
    rewrite Hadd in Hs.
    destruct (succeeds_split rand_s _ _ _ _ _ Hs)
      as (ws1 & ws2 & g1 & -> & Hs1 & Hs2).
    pose proof (succeeds_length _ _ _ _ _ Hs1) as Hl1.
    assert (Hlen1 : Z.of_nat (length (le_bytes ws1)) = a)
      by (rewrite length_le_bytes, Hl1; lia).
    eexists 1, _. split;
      [apply (coap_prng_impl_succeeds size_bits rand_s buf a w ws1 g1);
         (done || lia)|].
    left. split; [done|]. rewrite Hall.
    rewrite (coap_prng_impl_succeeds size_bits rand_s (buf + a) b _ ws2 g');
      cbn [rng mem draws]; [|lia| |done].
    + rewrite overwritten_take_app by lia.
      rewrite le_bytes_app, take_app_ge by lia.
      rewrite Hadd. f_equal. f_equal; [|lia]. do 3 f_equal. lia.
    + unfold valid_buffer. cbn [mem].
      rewrite length_overwritten; rewrite ?length_take; lia.
  - pose proof (chunks_bound j (a + b) ltac:(lia) Hj) as Hlt.
    pose proof (coap_prng_impl_fails size_bits rand_s buf (a + b) w j ws g'
                  ltac:(lia) Hvalid Hf Hlt) as Hall.
    destruct (decide (j < chunks a)%nat) as [Hearly|Hlate].
    + (* the first call already fails *)
      exists 0. eexists. split;
        [apply (coap_prng_impl_fails size_bits rand_s buf a w j ws g');
           (done || lia)|].
      right. done.
    + (* the first call succeeds, the second fails *)
      destruct Hf as (g2 & status & x & Hs & Hx & Hst).
      replace j with (chunks a + (j - chunks a))%nat in Hs by lia.
      destruct (succeeds_split rand_s _ _ _ _ _ Hs)
        as (ws1 & ws2 & g1 & -> & Hs1 & Hs2).
      pose proof (succeeds_length _ _ _ _ _ Hs1) as Hl1.
      assert (Hlen1 : Z.of_nat (length (le_bytes ws1)) = a)
        by (rewrite length_le_bytes, Hl1; lia).
      eexists 1, _. split;
        [apply (coap_prng_impl_succeeds size_bits rand_s buf a w ws1 g1);
           (done || lia)|].
      left. split; [done|]. rewrite Hall.
      rewrite (coap_prng_impl_fails size_bits rand_s (buf + a) b _
                 (j - chunks a) ws2 g');
        cbn [rng mem draws]; [|lia| | |lia].
      * rewrite overwritten_take_app by lia.
        rewrite le_bytes_app. do 2 f_equal. lia.
      * unfold valid_buffer. cbn [mem].
        rewrite length_overwritten; rewrite ?length_take; lia.
      * by exists g2, status, x.
Qed.

(** X3. When the Win32 back end returns 1, every complete group of four
    bytes of the buffer, read as a little-endian number, is the 32-bit
    value the corresponding call of [rand_s] delivered: no bit of a word
    is lost or reordered, on any host. *)
Theorem coap_prng_impl_round_trip {G : Type} (size_bits : Z)
    (rand_s : G → Z * Z * G) (buf len : Z) (w : world G)
    (ws : list Z) (g' : G) :
  0 ≤ len < 2 ^ size_bits → valid_buffer w buf len →
  succeeds rand_s (chunks len) (rng w) ws g' →
  ∃ w',
    Win32.coap_prng_impl size_bits rand_s buf len w = Return 1 w' ∧
    ∀ (j : nat) x,
      ws !! j = Some x → 4 * (Z.of_nat j + 1) ≤ len →
      little_endian_to_Z 8 (take 4 (drop (Z.to_nat buf + 4 * j) (mem w'))) = x.
Proof.
  intros Hlen Hvalid Hs. pose proof Hvalid as (Hbuf & _ & Hm).
  eexists. split; [by apply coap_prng_impl_succeeds|].
  intros j x Hj Hfull. cbn [mem].
  pose proof (length_le_bytes ws) as Hl.
  pose proof (succeeds_length _ _ _ _ _ Hs) as Hk.
  pose proof (chunks_enough len (proj1 Hlen)) as Hen.
  rewrite overwritten_read_at by (rewrite ?length_take; lia).
  rewrite take_drop_take by lia.
  rewrite (le_bytes_word ws j x Hj).
  rewrite little_endian_to_Z_to_little_endian by lia.
  apply Z.mod_small.
  pose proof (succeeds_range _ _ _ _ _ Hs) as Hr.
  rewrite Forall_lookup in Hr. apply (Hr j x Hj).
Qed.

(** ** Words read back from the buffer *)

Lemma object_value_bytes e size x :
  0 ≤ size → 0 ≤ x < 2 ^ (8 * size) →
  object_value e (object_bytes e size x) = x.
Proof.
  intros Hsize Hx. destruct e; simpl; rewrite ?reverse_involutive;
    rewrite little_endian_to_Z_to_little_endian by lia;
    rewrite (Z.mul_comm size 8); by apply Z.mod_small.
Qed.

Section WordRoundTrip.
Context {G : Type}.
Variable order : endianness.
Variable size_bits : Z.
Variable rand : G → Z * G.
Variable sizeof_v : Z.
Hypothesis sizeof_pos : 0 < sizeof_v.

Local Abbreviation fill := (word_prng_impl order size_bits rand sizeof_v).
Local Abbreviation drawn := (words_drawn sizeof_v).
Local Abbreviation words := (stream_words rand sizeof_v).
Local Abbreviation state_after := (stream_state rand).
Local Abbreviation bytes_from := (stream_bytes order sizeof_v).
Local Abbreviation bytes_of := (object_bytes order sizeof_v).

(** The [j]-th word of the stream is what the [j+1]-st call returns. *)
Lemma stream_words_lookup n : ∀ (j : nat) g,
  (j < n)%nat →
  words n g !! j = Some ((rand (state_after j g)).1 mod 2 ^ (8 * sizeof_v)).
Proof.
  induction n as [|n IH]; intros j g Hj; [lia|].
  destruct j as [|j]; [done|]. simpl. apply IH. lia.
Qed.

Lemma stream_bytes_word ws : ∀ (j : nat) x,
  ws !! j = Some x →
  take (Z.to_nat sizeof_v) (drop (Z.to_nat sizeof_v * j) (bytes_from ws))
  = bytes_of x.
Proof.
  induction ws as [|y ws IH]; intros j x Hj; [done|].
  change (bytes_from (y :: ws)) with (bytes_of y ++ bytes_from ws).
  assert (Hl : length (bytes_of y) = Z.to_nat sizeof_v)
    by (apply Nat2Z.inj; rewrite length_object_bytes; lia).
  destruct j as [|j]; simpl in Hj.
  - simplify_eq. rewrite Nat.mul_0_r, drop_0. by apply take_app_length'.
  - rewrite drop_app_ge by lia. rewrite Hl.
    replace (Z.to_nat sizeof_v * Datatypes.S j - Z.to_nat sizeof_v)%nat
      with (Z.to_nat sizeof_v * j)%nat by lia.
    by apply IH.
Qed.

Lemma word_prng_impl_round_trip buf len w :
  0 ≤ len < 2 ^ size_bits → valid_buffer w buf len →
  ∃ w',
    fill buf len w = Return 1 w' ∧
    ∀ j : nat,
      sizeof_v * (Z.of_nat j + 1) ≤ len →
      object_value order
        (take (Z.to_nat sizeof_v)
           (drop (Z.to_nat buf + Z.to_nat sizeof_v * j) (mem w')))
      = (rand (state_after j (rng w))).1 mod 2 ^ (8 * sizeof_v).
Proof.
  intros Hlen (Hbuf & _ & Hm).
  eexists. split; [by apply word_prng_impl_spec|].
  intros j Hfull. cbn [mem].
  pose proof (words_drawn_enough sizeof_v sizeof_pos len) as Hen.
  pose proof (length_stream_bytes order sizeof_v sizeof_pos
                (words (drawn len) (rng w))) as Hl.
  rewrite length_stream_words in Hl.
  assert (Hj : (j < drawn len)%nat) by nia.
  rewrite overwritten_read_at by (rewrite ?length_take; nia).
  rewrite take_drop_take by nia.
  rewrite (stream_bytes_word _ j _ (stream_words_lookup _ j _ Hj)).
  apply object_value_bytes; [lia|]. apply Z.mod_pos_bound. lia.
Qed.
End WordRoundTrip.

(** ** The Win32 back end on a buffer that is too short *)
Section Win32Bounds.
Context {G : Type}.
Variable size_bits : Z.
Variable rand_s : G → Z * Z * G.

Import Win32.

Local Abbreviation fill_fuel := (coap_prng_impl_fuel size_bits rand_s).




End Win32Bounds.

(** ** Bytes stay bytes *)







(** ** Splitting, prefixes, short buffers and the width of [size_t] *)

(** X5. Filling [a + b] bytes in two calls of [contiki_prng_impl] (or of
    [lwip_prng_impl]), the first for a positive multiple [a] of the word
    size and the second for [b > 0] bytes right behind, ends in the very
    state one call for [a + b] bytes ends in: the same bytes, the same
    generator state, the same number of generator calls. *)
Theorem word_fill_split {G : Type} (order : endianness) (size_bits : Z)
    (random_rand LWIP_RAND : G → Z * G) (buf a b : Z) (w : world G) :
  0 < a → 0 < b → a + b < 2 ^ size_bits → valid_buffer w buf (a + b) →
  (a mod 2 = 0 →
   ∃ w1,
     Contiki.contiki_prng_impl order size_bits random_rand buf a w
     = Return 1 w1 ∧
     Contiki.contiki_prng_impl order size_bits random_rand (buf + a) b w1
     = Contiki.contiki_prng_impl order size_bits random_rand buf (a + b) w) ∧
  (a mod 4 = 0 →
   ∃ w1,
     LwIP.lwip_prng_impl order size_bits LWIP_RAND buf a w = Return 1 w1 ∧
     LwIP.lwip_prng_impl order size_bits LWIP_RAND (buf + a) b w1
     = LwIP.lwip_prng_impl order size_bits LWIP_RAND buf (a + b) w).
Proof.
  intros Ha Hb Hsz Hvalid.
  split; intros Hmod; by apply word_prng_impl_split.
Qed.

(** X6. From the same generator state a request for [n] bytes delivers
    the first [n] of the bytes a request for [k ≥ n] bytes delivers (for
    Win32: when the calls of [rand_s] for the [k] bytes succeed). *)
Theorem fill_prefix {G : Type} (order : endianness) (size_bits : Z)
    (random_rand LWIP_RAND : G → Z * G) (rand_s : G → Z * Z * G)
    (buf n k : Z) (w : world G) :
  0 ≤ n ≤ k → k < 2 ^ size_bits → valid_buffer w buf k →
  (∃ w1 w2,
     Contiki.contiki_prng_impl order size_bits random_rand buf n w
     = Return 1 w1 ∧
     Contiki.contiki_prng_impl order size_bits random_rand buf k w
     = Return 1 w2 ∧
     take (Z.to_nat n) (drop (Z.to_nat buf) (mem w1))
     = take (Z.to_nat n) (drop (Z.to_nat buf) (mem w2))) ∧
  (∃ w1 w2,
     LwIP.lwip_prng_impl order size_bits LWIP_RAND buf n w = Return 1 w1 ∧
     LwIP.lwip_prng_impl order size_bits LWIP_RAND buf k w = Return 1 w2 ∧
     take (Z.to_nat n) (drop (Z.to_nat buf) (mem w1))
     = take (Z.to_nat n) (drop (Z.to_nat buf) (mem w2))) ∧
  (∀ ws g',
     succeeds rand_s (chunks k) (rng w) ws g' →
     ∃ w1 w2,
       Win32.coap_prng_impl size_bits rand_s buf n w = Return 1 w1 ∧
       Win32.coap_prng_impl size_bits rand_s buf k w = Return 1 w2 ∧
       take (Z.to_nat n) (drop (Z.to_nat buf) (mem w1))
       = take (Z.to_nat n) (drop (Z.to_nat buf) (mem w2))).
Proof.
  intros Hnk Hk Hvalid. pose proof Hvalid as (Hbuf & _ & Hm).
  assert (Hword : ∀ (rand : G → Z * G) sz, 0 < sz →
    ∃ w1 w2,
      word_prng_impl order size_bits rand sz buf n w = Return 1 w1 ∧
      word_prng_impl order size_bits rand sz buf k w = Return 1 w2 ∧
      take (Z.to_nat n) (drop (Z.to_nat buf) (mem w1))
      = take (Z.to_nat n) (drop (Z.to_nat buf) (mem w2))).
  { intros rand sz Hsz. eexists _, _.
    split; [apply word_prng_impl_spec; (done || lia)|].
    split; [apply word_prng_impl_spec; (done || lia)|]. cbn [mem].
    fold (word_output order rand sz n (rng w)).
    fold (word_output order rand sz k (rng w)).
    assert (Hln : length (word_output order rand sz n (rng w)) = Z.to_nat n)
      by (apply Nat2Z.inj; unfold word_output;
          rewrite length_take_stream; lia).
    assert (Hlk : length (word_output order rand sz k (rng w)) = Z.to_nat k)
      by (apply Nat2Z.inj; unfold word_output;
          rewrite length_take_stream; lia).
    rewrite <- Hln at 1. rewrite overwritten_read by lia.
    rewrite <- (Nat.add_0_r (Z.to_nat buf)) at 1.
    rewrite overwritten_read_at by lia. rewrite drop_0.
    by apply word_output_prefix. }
  split; [by apply Hword|]. split; [by apply Hword|].
  intros ws g' Hs.
  assert (Hc : (chunks n ≤ chunks k)%nat).
  { unfold chunks. assert ((n + 3) / 4 ≤ (k + 3) / 4)
      by (apply Z.div_le_mono; lia). lia. }
  replace (chunks k) with (chunks n + (chunks k - chunks n))%nat in Hs by lia.
  destruct (succeeds_split rand_s _ _ _ _ _ Hs)
    as (ws1 & ws2 & g1 & -> & Hs1 & Hs2).
  replace (chunks n + (chunks k - chunks n))%nat with (chunks k) in Hs by lia.
  eexists _, _.
  split; [apply (coap_prng_impl_succeeds size_bits rand_s buf n w ws1 g1);
            (done || unfold valid_buffer; lia)|].
  split; [apply (coap_prng_impl_succeeds size_bits rand_s buf k w
                   (ws1 ++ ws2) g'); (done || lia)|].
  cbn [mem].
  pose proof (length_le_bytes ws1) as Hl1.
  pose proof (length_le_bytes (ws1 ++ ws2)) as Hl.
  pose proof (succeeds_length _ _ _ _ _ Hs1) as Hk1.
  pose proof (succeeds_length _ _ _ _ _ Hs) as Hk2.
  pose proof (chunks_enough n (proj1 Hnk)).
  pose proof (chunks_enough k ltac:(lia)).
  rewrite <- (Nat.add_0_r (Z.to_nat buf)).
  rewrite !overwritten_read_at by (rewrite ?length_take; lia).
  rewrite !drop_0, !take_take, le_bytes_app.
  rewrite Nat.min_id, (Nat.min_l (Z.to_nat n)) by lia.
  rewrite take_app_le by lia. done.
Qed.

(** X7. After [contiki_prng_impl] (or [lwip_prng_impl]) every complete
    word of the buffer, read back in the host's byte order, is the value
    the corresponding call of the generator returned, reduced to the width
    of [v]: the [j]-th word of the buffer is the [j+1]-st value drawn. *)
Theorem word_fill_round_trip {G : Type} (order : endianness) (size_bits : Z)
    (random_rand LWIP_RAND : G → Z * G) (buf len : Z) (w : world G) :
  0 ≤ len < 2 ^ size_bits → valid_buffer w buf len →
  (∃ w',
     Contiki.contiki_prng_impl order size_bits random_rand buf len w
     = Return 1 w' ∧
     ∀ j : nat,
       2 * (Z.of_nat j + 1) ≤ len →
       object_value order (take 2 (drop (Z.to_nat buf + 2 * j) (mem w')))
       = (random_rand (stream_state random_rand j (rng w))).1 mod 2 ^ 16) ∧
  (∃ w',
     LwIP.lwip_prng_impl order size_bits LWIP_RAND buf len w = Return 1 w' ∧
     ∀ j : nat,
       4 * (Z.of_nat j + 1) ≤ len →
       object_value order (take 4 (drop (Z.to_nat buf + 4 * j) (mem w')))
       = (LWIP_RAND (stream_state LWIP_RAND j (rng w))).1 mod 2 ^ 32).
Proof.
  intros Hlen Hvalid. split.
  - exact (word_prng_impl_round_trip order size_bits random_rand 2 eq_refl
             buf len w Hlen Hvalid).
  - exact (word_prng_impl_round_trip order size_bits LWIP_RAND 4 eq_refl
             buf len w Hlen Hvalid).
Qed.


(** X9. The width of [size_t] does not matter: no subtraction on [len]
    wraps around, so two hosts whose [size_t] can both hold [len] get the
    same result from each back end. *)
Theorem fill_size_t_independent {G : Type} (order : endianness)
    (bits1 bits2 : Z) (random_rand LWIP_RAND : G → Z * G)
    (rand_s : G → Z * Z * G) (buf len : Z) (w : world G) :
  0 ≤ len → len < 2 ^ bits1 → len < 2 ^ bits2 → valid_buffer w buf len →
  Contiki.contiki_prng_impl order bits1 random_rand buf len w
  = Contiki.contiki_prng_impl order bits2 random_rand buf len w ∧
  LwIP.lwip_prng_impl order bits1 LWIP_RAND buf len w
  = LwIP.lwip_prng_impl order bits2 LWIP_RAND buf len w ∧
  Win32.coap_prng_impl bits1 rand_s buf len w
  = Win32.coap_prng_impl bits2 rand_s buf len w.
Proof.
  intros Hlen H1 H2 Hvalid. pose proof Hvalid as (Hbuf & _ & Hm).
  split; [|split].
  - unfold Contiki.contiki_prng_impl.
    by rewrite !word_prng_impl_spec by (done || lia).
  - unfold LwIP.lwip_prng_impl.
    by rewrite !word_prng_impl_spec by (done || lia).
  - destruct (succeeds_or_fails rand_s (chunks len) (rng w))
      as [(ws & g' & Hs)|(k & ws & g' & Hk & Hf)].
    + by rewrite !(coap_prng_impl_succeeds _ rand_s buf len w ws g')
        by (done || lia).
    + pose proof (chunks_bound k len Hlen Hk).
      by rewrite !(coap_prng_impl_fails _ rand_s buf len w k ws g')
        by (done || lia).
Qed.

(** ** The further properties at concrete inputs *)


Lemma script2_succeeds :
  succeeds Sample.rand_s 2 (rng w_script2) [16909060; 84281096] [].
Proof.
  apply (succeeds_S Sample.rand_s 1 _ 16909060 [(0, 84281096)] [84281096] []);
    [reflexivity|].
  apply (succeeds_S Sample.rand_s 0 _ 84281096 [] [] []);
    [reflexivity|constructor].
Defined.

(** X1 on the failing script: the call returns 0, so some call failed. *)
Lemma coap_prng_impl_result_witness :
  0 ≤ 6 < 2 ^ 32 ∧ valid_buffer w_script 1 6 ∧
  ∃ k ws g', (k < chunks 6)%nat ∧ fails_after Sample.rand_s k (rng w_script) ws g'.
Proof.
  assert (H1 : 0 ≤ 6 < 2 ^ 32) by lia.
  assert (H2 : valid_buffer w_script 1 6) by (unfold valid_buffer; simpl; lia).
  destruct (coap_prng_impl_result 32 Sample.rand_s 1 6 w_script H1 H2)
    as (_ & [Hfails _] & _).
  split; [exact H1|]. split; [exact H2|].
  apply Hfails. eexists. vm_compute. reflexivity.
Defined.

(** X2 on the failing script, split after the first word. *)
Lemma coap_prng_impl_split_witness :
  0 ≤ 4 ∧ 0 ≤ 2 ∧ 4 mod 4 = 0 ∧ 4 + 2 < 2 ^ 32 ∧
  valid_buffer w_script 1 (4 + 2) ∧
  ∃ r w1,
    Win32.coap_prng_impl 32 Sample.rand_s 1 4 w_script = Return r w1 ∧
    (r = 1 ∧
     Win32.coap_prng_impl 32 Sample.rand_s (1 + 4) 2 w1
     = Win32.coap_prng_impl 32 Sample.rand_s 1 (4 + 2) w_script ∨
     r = 0 ∧
     Win32.coap_prng_impl 32 Sample.rand_s 1 (4 + 2) w_script = Return 0 w1).
Proof.
  assert (H1 : 0 ≤ 4) by lia. assert (H2 : 0 ≤ 2) by lia.
  assert (H3 : 4 mod 4 = 0) by reflexivity.
  assert (H4 : 4 + 2 < 2 ^ 32) by lia.
  assert (H5 : valid_buffer w_script 1 (4 + 2))
    by (unfold valid_buffer; simpl; lia).
  repeat (split; [assumption|]).
  exact (coap_prng_impl_split 32 Sample.rand_s 1 4 2 w_script H1 H2 H3 H4 H5).
Defined.

(** X3 on the script of two words: the second group of four bytes reads
    back as the second word. *)
Lemma coap_prng_impl_round_trip_witness :
  0 ≤ 8 < 2 ^ 32 ∧ valid_buffer w_script2 0 8 ∧
  succeeds Sample.rand_s (chunks 8) (rng w_script2) [16909060; 84281096] [] ∧
  ∃ w',
    Win32.coap_prng_impl 32 Sample.rand_s 0 8 w_script2 = Return 1 w' ∧
    little_endian_to_Z 8 (take 4 (drop (Z.to_nat 0 + 4 * 1) (mem w')))
    = 84281096.
Proof.
  assert (H1 : 0 ≤ 8 < 2 ^ 32) by lia.
  assert (H2 : valid_buffer w_script2 0 8) by (unfold valid_buffer; simpl; lia).
  destruct (coap_prng_impl_round_trip 32 Sample.rand_s 0 8 w_script2
              [16909060; 84281096] [] H1 H2 script2_succeeds)
    as (w' & Hret & Hread).
  split; [exact H1|]. split; [exact H2|]. split; [exact script2_succeeds|].
  exists w'. split; [exact Hret|].
  apply (Hread 1%nat 84281096); [reflexivity|lia].
Defined.


(** X5 on the sample generators: four bytes, then one more. *)
Lemma word_fill_split_witness :
  0 < 4 ∧ 0 < 1 ∧ 4 + 1 < 2 ^ 32 ∧ valid_buffer w_sample8 1 (4 + 1) ∧
  4 mod 2 = 0 ∧ 4 mod 4 = 0 ∧
  (∃ w1,
     Contiki.contiki_prng_impl LittleEndian 32 Sample.random_rand 1 4 w_sample8
     = Return 1 w1 ∧
     Contiki.contiki_prng_impl LittleEndian 32 Sample.random_rand (1 + 4) 1 w1
     = Contiki.contiki_prng_impl LittleEndian 32 Sample.random_rand 1 (4 + 1)
         w_sample8) ∧
  (∃ w1,
     LwIP.lwip_prng_impl LittleEndian 32 Sample.LWIP_RAND 1 4 w_sample8
     = Return 1 w1 ∧
     LwIP.lwip_prng_impl LittleEndian 32 Sample.LWIP_RAND (1 + 4) 1 w1
     = LwIP.lwip_prng_impl LittleEndian 32 Sample.LWIP_RAND 1 (4 + 1)
         w_sample8).
Proof.
  assert (H1 : 0 < 4) by lia. assert (H2 : 0 < 1) by lia.
  assert (H3 : 4 + 1 < 2 ^ 32) by lia.
  assert (H4 : valid_buffer w_sample8 1 (4 + 1))
    by (unfold valid_buffer; simpl; lia).
  assert (H5 : 4 mod 2 = 0) by reflexivity.
  assert (H6 : 4 mod 4 = 0) by reflexivity.
  destruct (word_fill_split LittleEndian 32 Sample.random_rand
              Sample.LWIP_RAND 1 4 1 w_sample8 H1 H2 H3 H4) as (Hc & Hl).
  repeat (split; [assumption|]).
  split; [exact (Hc H5)|exact (Hl H6)].
Defined.

(** X6 on the sample generator: three bytes against five. *)
Lemma fill_prefix_witness :
  0 ≤ 3 ≤ 5 ∧ 5 < 2 ^ 32 ∧ valid_buffer w_sample8 1 5 ∧
  ∃ w1 w2,
    Contiki.contiki_prng_impl LittleEndian 32 Sample.random_rand 1 3 w_sample8
    = Return 1 w1 ∧
    Contiki.contiki_prng_impl LittleEndian 32 Sample.random_rand 1 5 w_sample8
    = Return 1 w2 ∧
    take (Z.to_nat 3) (drop (Z.to_nat 1) (mem w1))
    = take (Z.to_nat 3) (drop (Z.to_nat 1) (mem w2)).
Proof.
  assert (H1 : 0 ≤ 3 ≤ 5) by lia. assert (H2 : 5 < 2 ^ 32) by lia.
  assert (H3 : valid_buffer w_sample8 1 5) by (unfold valid_buffer; simpl; lia).
  destruct (fill_prefix LittleEndian 32 Sample.random_rand Sample.LWIP_RAND
              Sample.rand_s_ok 1 3 5 w_sample8 H1 H2 H3) as (Hc & _).
  split; [exact H1|]. split; [exact H2|]. split; [exact H3|exact Hc].
Defined.

(** X7 on the sample generator: the first word of the buffer is the first
    value drawn, 16838. *)
Lemma word_fill_round_trip_witness :
  0 ≤ 5 < 2 ^ 32 ∧ valid_buffer w_sample8 1 5 ∧
  ∃ w',
    Contiki.contiki_prng_impl LittleEndian 32 Sample.random_rand 1 5 w_sample8
    = Return 1 w' ∧
    object_value LittleEndian (take 2 (drop (Z.to_nat 1 + 2 * 0) (mem w')))
    = 16838.
Proof.
  assert (H1 : 0 ≤ 5 < 2 ^ 32) by lia.
  assert (H2 : valid_buffer w_sample8 1 5) by (unfold valid_buffer; simpl; lia).
  destruct (word_fill_round_trip LittleEndian 32 Sample.random_rand
              Sample.LWIP_RAND 1 5 w_sample8 H1 H2) as ((w' & Hret & Hread) & _).
  split; [exact H1|]. split; [exact H2|].
  exists w'. split; [exact Hret|].
  rewrite (Hread 0%nat) by lia. vm_compute. reflexivity.
Defined.


(** X9 on the sample hosts: a 16-bit and a 64-bit [size_t]. *)
Lemma fill_size_t_independent_witness :
  0 ≤ 5 ∧ 5 < 2 ^ 16 ∧ 5 < 2 ^ 64 ∧ valid_buffer w_sample8 1 5 ∧
  Contiki.contiki_prng_impl LittleEndian 16 Sample.random_rand 1 5 w_sample8
  = Contiki.contiki_prng_impl LittleEndian 64 Sample.random_rand 1 5 w_sample8 ∧
  Win32.coap_prng_impl 16 Sample.rand_s_ok 1 5 w_sample8
  = Win32.coap_prng_impl 64 Sample.rand_s_ok 1 5 w_sample8.
Proof.
  assert (H1 : 0 ≤ 5) by lia. assert (H2 : 5 < 2 ^ 16) by lia.
  assert (H3 : 5 < 2 ^ 64) by lia.
  assert (H4 : valid_buffer w_sample8 1 5) by (unfold valid_buffer; simpl; lia).
  destruct (fill_size_t_independent LittleEndian 16 64 Sample.random_rand
              Sample.LWIP_RAND Sample.rand_s_ok 1 5 w_sample8 H1 H2 H3 H4)
    as (Hc & _ & Hw).
  repeat (split; [assumption|]). done.
Defined.

(** The alignment asked for in X5 is needed: split after one byte, the two
    calls draw two words where the single call draws one, and the second
    byte differs. *)
Example contiki_unaligned_split_differs :
  ∃ w1,
    Contiki.contiki_prng_impl LittleEndian 32 Sample.random_rand 0 1 w_sample
    = Return 1 w1 ∧
    Contiki.contiki_prng_impl LittleEndian 32 Sample.random_rand 1 1 w1
    ≠ Contiki.contiki_prng_impl LittleEndian 32 Sample.random_rand 0 2 w_sample.
Proof.
  eexists. split; [vm_compute; reflexivity|]. vm_compute. discriminate.
Qed.
